(** * Orbit: planner, executor, step broadcast hub and OrbitHelper CLI

    Shallow embedding of the Orbit automation agent.

    - The agent core (the Python planner, tool registry, run executor and
      WebSocket step hub) is not part of the sources at hand; the parts of
      it needed here are modelled from the specification, and every such
      definition says so in its doc comment.
    - The Swift helper [OrbitHelper] ([helper/OrbitHelper/OrbitHelper/main.swift],
      and the extended copy of the same file embedded in [PHASE1_COMPLETE.md])
      is translated from its source, with the operating system (launch
      services, accessibility trust, AppleScript) as an explicit oracle.
    - The [CommandBar] React component's step-event handler is translated
      from its source. *)

From Stdlib Require Import String Ascii List Bool Arith Lia Sorted ZArith.
Import ListNotations.
Open Scope string_scope.
Open Scope nat_scope.
Open Scope list_scope.

(* ------------------------------------------------------------------ *)
(** ** Data model *)

Inductive Value : Type :=
| VNat (n : nat)
| VStr (s : string).

(** ToolCall: a tool name and its parameter mapping. *)
Record ToolCall : Type := mkToolCall {
  tool_name : string;
  parameters : list (string * Value)
}.

Definition Plan : Type := list ToolCall.

Inductive StepStatus : Type := SQueued | SRunning | SOk | SError.

Inductive RunStatus : Type := RPending | RRunning | RCompleted | RFailed.

Record Step : Type := mkStep {
  step_id : nat;
  tool_call : ToolCall;
  status : StepStatus
}.

Record Run : Type := mkRun {
  run_id : nat;
  created_at : nat;
  plan : Plan;
  rstatus : RunStatus;
  steps : list Step
}.

Record StepEvent : Type := mkStepEvent {
  ev_run_id : nat;
  ev_step_id : nat;
  ev_status : StepStatus;
  ev_message : string;
  ev_timestamp : nat
}.

Inductive PlanError : Type := UnparseableCommand | ToolNotFound.

Definition StepStatus_eqb (a b : StepStatus) : bool :=
  match a, b with
  | SQueued, SQueued | SRunning, SRunning | SOk, SOk | SError, SError => true
  | _, _ => false
  end.

(* ------------------------------------------------------------------ *)
(** ** Planner *)

(** Modelled from the spec: the planner ([planner.py], missing from the
    sources): the command is split into words, the words into clauses on
    the conjunction markers, each clause is matched against the pattern
    rules in registration order (first match wins) and one unmatched
    clause fails the whole plan with [UnparseableCommand]; the produced
    tool names are then validated against the tool registry. The rules are
    the two the spec and the phase notes name: "create N files in DIR" and
    "open APP". *)

Definition space : ascii := " "%char.

Fixpoint split_words_aux (s : string) (cur : string) : list string :=
  match s with
  | EmptyString => if String.eqb cur "" then [] else [cur]
  | String c rest =>
      if Ascii.eqb c space
      then if String.eqb cur "" then split_words_aux rest ""
           else cur :: split_words_aux rest ""
      else split_words_aux rest (cur ++ String c EmptyString)%string
  end.

Definition split_words (s : string) : list string := split_words_aux s "".

Definition conjunctions : list string := ["then"; "and"].

Definition is_conjunction (w : string) : bool :=
  existsb (String.eqb w) conjunctions.

Fixpoint split_clauses (ws : list string) : list (list string) :=
  match ws with
  | [] => [[]]
  | w :: ws' =>
      if is_conjunction w then [] :: split_clauses ws'
      else match split_clauses ws' with
           | c :: cs => (w :: c) :: cs
           | [] => [[w]]
           end
  end.

Definition clauses (command : string) : list (list string) :=
  split_clauses (split_words command).

Fixpoint join_words (ws : list string) : string :=
  match ws with
  | [] => ""
  | [w] => w
  | w :: ws' => (w ++ " " ++ join_words ws')%string
  end.

Definition digit_value (c : ascii) : option nat :=
  let n := nat_of_ascii c in
  if Nat.leb 48 n && Nat.leb n 57 then Some (n - 48) else None.

Fixpoint parse_digits (s : string) (acc : nat) : option nat :=
  match s with
  | EmptyString => Some acc
  | String c rest =>
      match digit_value c with
      | Some d => parse_digits rest (acc * 10 + d)
      | None => None
      end
  end.

Definition parse_nat (s : string) : option nat :=
  match s with
  | EmptyString => None
  | _ => parse_digits s 0
  end.

Definition create_files_call (count : nat) (dir : string) : ToolCall :=
  mkToolCall "create_files" [("count", VNat count); ("dir", VStr dir)].

Definition open_app_call (name : string) : ToolCall :=
  mkToolCall "open_app" [("name", VStr name)].

(** Directory used when a create clause names none (Scenario C of the
    spec, "create 2 files then open notion", has no "in DIR"; the spec
    does not name the default, the model takes the current directory). *)
Definition default_dir : string := ".".

(** Rule "create N files [in DIR]". *)
Definition rule_create (cl : list string) : option ToolCall :=
  match cl with
  | w :: n :: f :: rest =>
      if String.eqb w "create" && (String.eqb f "files" || String.eqb f "file")
      then match parse_nat n, rest with
           | Some k, [] => Some (create_files_call k default_dir)
           | Some k, i :: d :: ds =>
               if String.eqb i "in" then Some (create_files_call k (join_words (d :: ds)))
               else None
           | _, _ => None
           end
      else None
  | _ => None
  end.

(** Rule "open APP". *)
Definition rule_open (cl : list string) : option ToolCall :=
  match cl with
  | w :: a :: rest =>
      if String.eqb w "open" then Some (open_app_call (join_words (a :: rest)))
      else None
  | _ => None
  end.

(** The pattern rules, in registration order. *)
Definition rules : list (list string -> option ToolCall) := [rule_create; rule_open].

Fixpoint first_match (rs : list (list string -> option ToolCall)) (cl : list string)
  : option ToolCall :=
  match rs with
  | [] => None
  | r :: rs' => match r cl with Some tc => Some tc | None => first_match rs' cl end
  end.

Definition match_clause (cl : list string) : option ToolCall := first_match rules cl.

Fixpoint all_some {A B : Type} (f : A -> option B) (l : list A) : option (list B) :=
  match l with
  | [] => Some []
  | x :: l' =>
      match f x, all_some f l' with
      | Some y, Some ys => Some (y :: ys)
      | _, _ => None
      end
  end.

(** Modelled from the spec: the tool registry ([tools.py], missing from the
    sources), as the set of registered tool names. *)
Definition registry : list string := ["create_files"; "open_app"; "helper"].

Definition registered (name : string) : bool := existsb (String.eqb name) registry.

Definition parse (command : string) : Plan + PlanError :=
  match all_some match_clause (clauses command) with
  | None => inr UnparseableCommand
  | Some p => if forallb (fun tc => registered (tool_name tc)) p then inl p
              else inr ToolNotFound
  end.

(* ------------------------------------------------------------------ *)
(** ** Executor, step broadcast hub and API edge *)

(** Result of a tool implementation: [{ok, message}]. *)
Record ToolResult : Type := mkToolResult {
  res_ok : bool;
  res_message : string
}.

(** An observer (a subscribed WebSocket client): its handle, the hub clock
    at subscription, and the events delivered to it so far, in order. *)
Record Observer : Type := mkObserver {
  obs_handle : nat;
  obs_since : nat;
  inbox : list StepEvent
}.

Section Agent.

(** The world the side-effecting tools act on (filesystem, applications)
    and the registry's dispatch of a tool call on it. *)
Context {World : Type}.
Context (invoke : World -> ToolCall -> World * ToolResult).

(** System state: the world, the run table, the run-id counter, the
    observer set, the handle counter, the hub clock (the timestamp of the
    next published event) and [log], the history of all published events,
    kept only to state properties. *)
Record Sys : Type := mkSys {
  world : World;
  runs : list Run;
  next_run : nat;
  observers : list Observer;
  next_handle : nat;
  clock : nat;
  log : list StepEvent
}.

Definition init (w : World) : Sys := mkSys w [] 1 [] 1 0 [].

(** Modelled from the spec: run creation in the executor ([server.py],
    missing from the sources): all steps of the plan pre-enumerated in
    [queued] state with step ids 1, 2, ... *)
Fixpoint enumerate (k : nat) (p : Plan) : list Step :=
  match p with
  | [] => []
  | tc :: p' => mkStep k tc SQueued :: enumerate (S k) p'
  end.

Definition new_run (id t : nat) (p : Plan) : Run := mkRun id t p RPending (enumerate 1 p).

Definition set_status (id : nat) (st : StepStatus) (l : list Step) : list Step :=
  map (fun s => if Nat.eqb (step_id s) id then mkStep (step_id s) (tool_call s) st else s) l.

Definition with_run (r : Run) (rs : RunStatus) (l : list Step) : Run :=
  mkRun (run_id r) (created_at r) (plan r) rs l.

Definition has_queued (l : list Step) : bool :=
  existsb (fun s => StepStatus_eqb (status s) SQueued) l.

(** Modelled from the spec: one scheduling step of the run controller
    ([server.py], missing from the sources). A terminal run does nothing.
    If a step is running, its tool call is invoked and the step ends [ok]
    or [error]; an error fails the run (fail-fast), an ok completes it when
    no step is left queued. Otherwise the first queued step is dequeued and
    marked running (the run leaves [pending]), with a [running] event
    emitted before the tool is invoked. Invoking is a step of its own, so
    that other runs and observers interleave while a tool is in flight.
    The events to publish are returned as (step_id, status, message). *)
Definition run_step (w : World) (r : Run)
  : option (World * Run * list (nat * StepStatus * string)) :=
  match rstatus r with
  | RCompleted | RFailed => None
  | _ =>
      match find (fun s => StepStatus_eqb (status s) SRunning) (steps r) with
      | Some s =>
          let '(w', res) := invoke w (tool_call s) in
          if res_ok res then
            let l := set_status (step_id s) SOk (steps r) in
            Some (w', with_run r (if has_queued l then RRunning else RCompleted) l,
                  [(step_id s, SOk, res_message res)])
          else
            let l := set_status (step_id s) SError (steps r) in
            Some (w', with_run r RFailed l, [(step_id s, SError, res_message res)])
      | None =>
          match find (fun s => StepStatus_eqb (status s) SQueued) (steps r) with
          | Some s =>
              Some (w, with_run r RRunning (set_status (step_id s) SRunning (steps r)),
                    [(step_id s, SRunning, ("Running " ++ tool_name (tool_call s))%string)])
          | None => Some (w, with_run r RCompleted (steps r), [])
          end
      end
  end.

(** Modelled from the spec: [publish] of the step broadcast hub
    ([steps.py], missing from the sources): the event is stamped with the
    hub clock and appended to the queue of every currently subscribed
    observer. *)
Definition publish (rid : nat) (e : nat * StepStatus * string) (s : Sys) : Sys :=
  let '(sid, st, msg) := e in
  let ev := mkStepEvent rid sid st msg (clock s) in
  mkSys (world s) (runs s) (next_run s)
        (map (fun o => mkObserver (obs_handle o) (obs_since o) (inbox o ++ [ev])) (observers s))
        (next_handle s) (S (clock s)) (log s ++ [ev]).

Fixpoint publish_all (rid : nat) (es : list (nat * StepStatus * string)) (s : Sys) : Sys :=
  match es with
  | [] => s
  | e :: es' => publish_all rid es' (publish rid e s)
  end.

Definition find_run (rid : nat) (rs : list Run) : option Run :=
  find (fun r => Nat.eqb (run_id r) rid) rs.

Definition replace_run (r : Run) (rs : list Run) : list Run :=
  map (fun r0 => if Nat.eqb (run_id r0) (run_id r) then r else r0) rs.

(** Operations of the system: a command submission at the API edge, one
    scheduling step of a run, an observer subscribing or unsubscribing.
    Any interleaving of these is a possible execution. *)
Inductive Op : Type :=
| Submit (command : string)
| Advance (rid : nat)
| Subscribe
| Unsubscribe (h : nat).

Inductive Response : Type :=
| RunAccepted (rid : nat)
| Rejected (e : PlanError)
| Subscribed (h : nat)
| Done.

(** Modelled from the spec: the API edge, run controller and hub as one
    transition function. A submission whose command does not parse is
    rejected synchronously and changes nothing. *)
Definition step_sys (op : Op) (s : Sys) : Response * Sys :=
  match op with
  | Submit c =>
      match parse c with
      | inr e => (Rejected e, s)
      | inl p =>
          (RunAccepted (next_run s),
           mkSys (world s) (runs s ++ [new_run (next_run s) (clock s) p])
                 (S (next_run s)) (observers s) (next_handle s) (clock s) (log s))
      end
  | Advance rid =>
      match find_run rid (runs s) with
      | None => (Done, s)
      | Some r =>
          match run_step (world s) r with
          | None => (Done, s)
          | Some (w', r', es) =>
              (Done, publish_all rid es
                       (mkSys w' (replace_run r' (runs s)) (next_run s) (observers s)
                              (next_handle s) (clock s) (log s)))
          end
      end
  | Subscribe =>
      (Subscribed (next_handle s),
       mkSys (world s) (runs s) (next_run s)
             (observers s ++ [mkObserver (next_handle s) (clock s) []])
             (S (next_handle s)) (clock s) (log s))
  | Unsubscribe h =>
      (Done, mkSys (world s) (runs s) (next_run s)
                   (filter (fun o => negb (Nat.eqb (obs_handle o) h)) (observers s))
                   (next_handle s) (clock s) (log s))
  end.

Fixpoint exec (ops : list Op) (s : Sys) : Sys :=
  match ops with
  | [] => s
  | op :: ops' => exec ops' (snd (step_sys op s))
  end.

End Agent.

(* ------------------------------------------------------------------ *)
(** ** OrbitHelper (Swift command-line helper) *)

Definition dq : string := String (ascii_of_nat 34) EmptyString.
Definition nl : string := String (ascii_of_nat 10) EmptyString.
Definition quoted (s : string) : string := (dq ++ s ++ dq)%string.

Fixpoint join_lines (ls : list string) : string :=
  match ls with
  | [] => ""
  | [l] => l
  | l :: ls' => (l ++ nl ++ join_lines ls')%string
  end.

(** [HelperError] and the [NSError] thrown by [runAppleScript]. *)
Inductive HelperError : Type :=
| Usage (msg : string)
| AppNotFound (msg : string)
| NSErr (domain : string) (code : Z) (info : string).

(** Outcome of [NSAppleScript]: [NSAppleScript(source:)] returned nil, the
    script raised an error (its message), or it returned a value (its
    [stringValue ?? ""]). *)
Inductive ScriptResult : Type :=
| ScriptInvalid
| ScriptError (msg : string)
| ScriptOutput (out : string).

(** The operating system as seen by the helper: accessibility trust, the
    result of [NSWorkspace.shared.launchApplication], the execution of an
    AppleScript source, and, for the polling script of [waitForElement],
    what [exists button]/[exists UI element] give at the i-th iteration
    ([None]: the test raised an error), the [current date] (seconds) read
    at the i-th iteration and the [startTime]. *)
Record Env : Type := mkEnv {
  ax_trusted : bool;
  launch_application : string -> bool;
  apple_script : string -> ScriptResult;
  probe_button : nat -> option bool;
  probe_element : nat -> option bool;
  clock_at : nat -> Z;
  start_time : Z
}.

(** Text written to stdout and stderr, line by line. *)
Record Out : Type := mkOut { out_lines : list string; err_lines : list string }.

Definition print (l : string) (o : Out) : Out := mkOut (out_lines o ++ [l]) (err_lines o).
Definition eprint (l : string) (o : Out) : Out := mkOut (out_lines o) (err_lines o ++ [l]).

(** Swift's throwing functions: output threaded through, a result or a
    thrown error. *)
Definition Throws (A : Type) : Type := Out -> Out * (A + HelperError).

Definition ret {A} (a : A) : Throws A := fun o => (o, inl a).
Definition throw {A} (e : HelperError) : Throws A := fun o => (o, inr e).
Definition bind {A B} (m : Throws A) (k : A -> Throws B) : Throws B :=
  fun o => match m o with
           | (o', inl a) => k a o'
           | (o', inr e) => (o', inr e)
           end.
Definition emit (l : string) : Throws unit := fun o => (print l o, inl tt).
Definition emit_err (l : string) : Throws unit := fun o => (eprint l o, inl tt).

Notation "x <- m ;; k" := (bind m (fun x => k)) (at level 61, m at next level, right associativity).
Notation "m ;; k" := (bind m (fun _ => k)) (at level 61, right associativity).

Definition usage_lines_v1 : list string :=
  [ "OrbitHelper " ++ String (ascii_of_nat 226) (String (ascii_of_nat 128) (String (ascii_of_nat 147) EmptyString)) ++ " macOS action helper";
    "";
    "Usage:";
    "  OrbitHelper open-app " ++ quoted "App Name";
    "  OrbitHelper focus-app " ++ quoted "App Name";
    "  OrbitHelper run-applescript 'tell application " ++ quoted "System Events"
      ++ " to keystroke " ++ quoted "n" ++ " using command down'";
    "  OrbitHelper click-menu " ++ quoted "App Name" ++ " " ++ quoted "Menu" ++ " "
      ++ quoted "Menu Item";
    "  OrbitHelper check-ax" ]%string.

Definition usage_lines_v2 : list string :=
  usage_lines_v1 ++
  [ "  OrbitHelper click-element " ++ quoted "App Name" ++ " " ++ quoted "Button Name";
    "  OrbitHelper get-text " ++ quoted "App Name" ++ " " ++ quoted "Element Name";
    "  OrbitHelper wait-for-element " ++ quoted "App Name" ++ " " ++ quoted "Element Name"
      ++ " [timeout]" ]%string.

Definition ax_warning : string :=
  "Accessibility permission not granted yet. Open System Settings > Privacy & Security > Accessibility and add OrbitHelper.".

(** [ensureAccessibilityPermission]: only a warning on stderr. *)
Definition ensureAccessibilityPermission (env : Env) : Throws unit :=
  if ax_trusted env then ret tt else emit_err ax_warning.

(** [openApp]. *)
Definition openApp (env : Env) (name : string) : Throws unit :=
  if launch_application env name then ret tt
  else throw (AppNotFound ("Could not open " ++ name)%string).

(** [runAppleScript]. *)
Definition runAppleScript (env : Env) (source : string) : Throws string :=
  match apple_script env source with
  | ScriptInvalid => throw (NSErr "applescript" 2 "Invalid AppleScript")
  | ScriptError msg => throw (NSErr "applescript" 1 msg)
  | ScriptOutput out => ret out
  end.

(** [focusApp]. *)
Definition focusApp (env : Env) (name : string) : Throws unit :=
  _ <- runAppleScript env ("tell application " ++ quoted name ++ " to activate")%string ;;
  ret tt.

Definition click_menu_script (app menu item : string) : string :=
  join_lines
    [ "tell application " ++ quoted app ++ " to activate";
      "tell application " ++ quoted "System Events";
      "  tell process " ++ quoted app;
      "    click menu item " ++ quoted item ++ " of menu " ++ quoted menu ++ " of menu bar 1";
      "  end tell";
      "end tell" ]%string.

(** [clickMenu]. *)
Definition clickMenu (env : Env) (app menu item : string) : Throws unit :=
  ensureAccessibilityPermission env ;;
  _ <- runAppleScript env (click_menu_script app menu item) ;;
  ret tt.

Fixpoint join_sep (sep : string) (ls : list string) : string :=
  match ls with
  | [] => ""
  | [l] => l
  | l :: ls' => (l ++ sep ++ join_sep sep ls')%string
  end.

(** Swift's [String(describing:)] of a [String] payload ([debugDescription]):
    quoted, with quote, backslash and control characters escaped. *)
Fixpoint swift_escape (s : string) : string :=
  match s with
  | EmptyString => ""
  | String c rest =>
      let n := nat_of_ascii c in
      let e := if Nat.eqb n 34 then String (ascii_of_nat 92) (String c EmptyString)
               else if Nat.eqb n 92 then String c (String c EmptyString)
               else if Nat.eqb n 10 then String (ascii_of_nat 92) "n"
               else if Nat.eqb n 13 then String (ascii_of_nat 92) "r"
               else if Nat.eqb n 9 then String (ascii_of_nat 92) "t"
               else String c EmptyString in
      (e ++ swift_escape rest)%string
  end.

(** ["\(error)"] of the errors thrown; [NSError]'s description is given by
    its domain, code and user info (its exact Foundation layout is not
    needed here). *)
Definition describe (e : HelperError) : string :=
  match e with
  | Usage m => "usage(" ++ dq ++ swift_escape m ++ dq ++ ")"
  | AppNotFound m => "appNotFound(" ++ dq ++ swift_escape m ++ dq ++ ")"
  | NSErr d c info =>
      "Error Domain=" ++ d ++ " Code=" ++ (if Z.eqb c 1 then "1" else "2")
      ++ " UserInfo={" ++ info ++ "}"
  end%string.

(** Result of running the helper: exit status and output. *)
Record Outcome : Type := mkOutcome { exit_code : Z; stdout : list string; stderr : list string }.

Definition no_output : Out := mkOut [] [].

(** The [do { switch cmd ... } catch { fputs("Error: \(error)\n", stderr); exit(2) }]
    block: a body that returns normally exits 0. *)
Definition run_body (body : Throws unit) : Outcome :=
  match body no_output with
  | (o, inl _) => mkOutcome 0 (out_lines o) (err_lines o)
  | (o, inr e) => mkOutcome 2 (out_lines o) (err_lines o ++ ["Error: " ++ describe e]%string)
  end.

Definition usage_exit (usage : list string) : Outcome := mkOutcome 1 usage [].

(** The commands of [helper/OrbitHelper/OrbitHelper/main.swift]: [None] for
    the [default] case. *)
Definition command_v1 (env : Env) (cmd : string) (rest : list string) : option (Throws unit) :=
  if String.eqb cmd "open-app" then
    Some (match rest with
          | name :: _ => openApp env name
          | [] => throw (Usage "open-app requires app name")
          end)
  else if String.eqb cmd "focus-app" then
    Some (match rest with
          | name :: _ => focusApp env name
          | [] => throw (Usage "focus-app requires app name")
          end)
  else if String.eqb cmd "run-applescript" then
    Some (let src := join_sep " " rest in
          if String.eqb src "" then throw (Usage "run-applescript requires a script string")
          else out <- runAppleScript env src ;;
               if String.eqb out "" then ret tt else emit out)
  else if String.eqb cmd "click-menu" then
    Some (match rest with
          | [app; menu; item] => clickMenu env app menu item
          | _ => throw (Usage "click-menu requires 3 args: app, menu, item")
          end)
  else if String.eqb cmd "check-ax" then
    Some (ensureAccessibilityPermission env)
  else None.

(** [main] of [helper/OrbitHelper/OrbitHelper/main.swift]; [args] are the
    arguments after the program name. *)
Definition helper_main (env : Env) (args : list string) : Outcome :=
  match args with
  | [] => usage_exit usage_lines_v1
  | cmd :: rest =>
      match command_v1 env cmd rest with
      | Some body => run_body body
      | None => usage_exit usage_lines_v1
      end
  end.

(** The extended helper listed in [PHASE1_COMPLETE.md] ([main.swift] with
    [click-element], [get-text] and [wait-for-element]). *)

Definition click_element_script (app el : string) : string :=
  join_lines
    [ "tell application " ++ quoted app ++ " to activate";
      "delay 0.5";
      "tell application " ++ quoted "System Events";
      "  tell process " ++ quoted app;
      "    try";
      "      click button " ++ quoted el;
      "    on error";
      "      try";
      "        click UI element " ++ quoted el;
      "      on error";
      "        error " ++ quoted ("Could not find element: " ++ el);
      "      end try";
      "    end try";
      "  end tell";
      "end tell" ]%string.

(** [clickElement]. *)
Definition clickElement (env : Env) (app el : string) : Throws unit :=
  ensureAccessibilityPermission env ;;
  _ <- runAppleScript env (click_element_script app el) ;;
  ret tt.

Definition get_text_script (app el : string) : string :=
  join_lines
    [ "tell application " ++ quoted app ++ " to activate";
      "delay 0.5";
      "tell application " ++ quoted "System Events";
      "  tell process " ++ quoted app;
      "    try";
      "      set textValue to value of text field " ++ quoted el;
      "      return textValue";
      "    on error";
      "      try";
      "        set textValue to name of UI element " ++ quoted el;
      "        return textValue";
      "      on error";
      "        try";
      "          set textValue to value of UI element " ++ quoted el;
      "          return textValue";
      "        on error";
      "          return " ++ quoted ("Could not get text from element: " ++ el);
      "        end try";
      "      end try";
      "    end try";
      "  end tell";
      "end tell" ]%string.

(** [getText]. *)
Definition getText (env : Env) (app el : string) : Throws string :=
  ensureAccessibilityPermission env ;;
  runAppleScript env (get_text_script app el).

(** The [repeat] loop of the AppleScript built by [waitForElement], from
    the i-th iteration on, with at most [fuel] iterations: [None] when the
    fuel runs out. The [activate] and [delay 0.5] before the loop are
    taken to succeed. *)
Fixpoint wait_loop (env : Env) (el : string) (timeout : Z) (i fuel : nat) : option ScriptResult :=
  match fuel with
  | O => None
  | S fuel' =>
      let check :=
        if Z.ltb timeout (clock_at env i - start_time env)
        then Some (ScriptError ("Timeout waiting for element: " ++ el)%string)
        else wait_loop env el timeout (S i) fuel' in
      match probe_button env i with
      | Some true => Some (ScriptOutput ("Found button: " ++ el)%string)
      | Some false => check
      | None =>
          match probe_element env i with
          | Some true => Some (ScriptOutput ("Found element: " ++ el)%string)
          | _ => check
          end
      end
  end.

(** [runAppleScript] on the script of [waitForElement]; [None] when the
    loop has not ended within the fuel. *)
Definition run_wait_script (env : Env) (el : string) (timeout : Z) (fuel : nat) : option (Throws string) :=
  match wait_loop env el timeout 0 fuel with
  | None => None
  | Some ScriptInvalid => Some (throw (NSErr "applescript" 2 "Invalid AppleScript"))
  | Some (ScriptError msg) => Some (throw (NSErr "applescript" 1 msg))
  | Some (ScriptOutput out) => Some (ret out)
  end.

(** [waitForElement]. *)
Definition waitForElement (env : Env) (fuel : nat) (app el : string) (timeout : Z) : option (Throws unit) :=
  match run_wait_script env el timeout fuel with
  | None => None
  | Some run =>
      Some (ensureAccessibilityPermission env ;;
            result <- run ;;
            emit result)
  end.

(** Swift's [Int(_: String)]: an optional sign and at least one decimal
    digit, within the 64-bit range. *)
Fixpoint digits_value (acc : Z) (s : string) : option Z :=
  match s with
  | EmptyString => Some acc
  | String c rest =>
      let n := nat_of_ascii c in
      if Nat.leb 48 n && Nat.leb n 57
      then digits_value (acc * 10 + Z.of_nat (n - 48))%Z rest
      else None
  end.

Definition unsigned_digits (s : string) : option Z :=
  match s with
  | EmptyString => None
  | _ => digits_value 0 s
  end.

Definition in_int64 (z : Z) : option Z :=
  if Z.leb (- 2 ^ 63) z && Z.leb z (2 ^ 63 - 1) then Some z else None.

Definition swift_int (s : string) : option Z :=
  match s with
  | String c rest =>
      if Ascii.eqb c "-" then
        match unsigned_digits rest with Some n => in_int64 (- n) | None => None end
      else if Ascii.eqb c "+" then
        match unsigned_digits rest with Some n => in_int64 n | None => None end
      else match unsigned_digits s with Some n => in_int64 n | None => None end
  | EmptyString => None
  end.

(** [parts.count >= 3 ? Int(parts[2]) ?? 10 : 10], [parts] starting at the
    third argument after [app] and the element name. *)
Definition wait_timeout (extra : list string) : Z :=
  match extra with
  | t :: _ => match swift_int t with Some z => z | None => 10 end
  | [] => 10
  end%Z.

(** The commands of the extended helper: [None] for the [default] case,
    [Some None] when the [wait-for-element] loop did not end within the
    fuel. *)
Definition command_v2 (env : Env) (fuel : nat) (cmd : string) (rest : list string)
  : option (option (Throws unit)) :=
  match command_v1 env cmd rest with
  | Some body => Some (Some body)
  | None =>
    if String.eqb cmd "click-element" then
      Some (Some (match rest with
                  | [app; el] => clickElement env app el
                  | _ => throw (Usage "click-element requires 2 args: app, element")
                  end))
    else if String.eqb cmd "get-text" then
      Some (Some (match rest with
                  | [app; el] => text <- getText env app el ;; emit text
                  | _ => throw (Usage "get-text requires 2 args: app, element")
                  end))
    else if String.eqb cmd "wait-for-element" then
      Some (match rest with
            | app :: el :: extra => waitForElement env fuel app el (wait_timeout extra)
            | _ => Some (throw (Usage "wait-for-element requires at least 2 args: app, element [timeout]"))
            end)
    else None
  end.

(** [main] of the extended helper; [None] when it does not terminate
    within the fuel. *)
Definition helper_main_ext (env : Env) (fuel : nat) (args : list string) : option Outcome :=
  match args with
  | [] => Some (usage_exit usage_lines_v2)
  | cmd :: rest =>
      match command_v2 env fuel cmd rest with
      | Some (Some body) => Some (run_body body)
      | Some None => None
      | None => Some (usage_exit usage_lines_v2)
      end
  end.

(* ------------------------------------------------------------------ *)
(** ** CommandBar ([CommandBar.tsx]) *)

(** The [StepEvent] received over the socket. *)
Record UiStepEvent : Type := mkUiStepEvent {
  ui_run_id : string;
  ui_step_id : Z;
  ui_status : string;
  ui_message : string
}.

(** The component state touched by the [connectSteps] callback. *)
Record CommandBarState : Type := mkCommandBarState {
  events : list UiStepEvent;
  isStepsOpen : bool
}.

(** The [connectSteps] callback:
    [setEvents(prev => [...prev, event]);
     if (event.status === "queued" && event.step_id === 1) setIsStepsOpen(true)]. *)
Definition on_step_event (st : CommandBarState) (event : UiStepEvent) : CommandBarState :=
  mkCommandBarState
    (events st ++ [event])
    (if String.eqb (ui_status event) "queued" && Z.eqb (ui_step_id event) 1
     then true else isStepsOpen st).

(* ------------------------------------------------------------------ *)
(** ** OrbitHelper: routing facts *)

(** The command names of the two [switch cmd] statements. *)
Definition commands_v1 : list string :=
  ["open-app"; "focus-app"; "run-applescript"; "click-menu"; "check-ax"].

Definition commands_v2 : list string :=
  commands_v1 ++ ["click-element"; "get-text"; "wait-for-element"].

(** The same machine with the accessibility trust set to [b]. *)
Definition with_ax (env : Env) (b : bool) : Env :=
  mkEnv b (launch_application env) (apple_script env) (probe_button env)
        (probe_element env) (clock_at env) (start_time env).

(** The same machine with another answer of [exists UI element]. *)
Definition with_probe_element (env : Env) (f : nat -> option bool) : Env :=
  mkEnv (ax_trusted env) (launch_application env) (apple_script env) (probe_button env)
        f (clock_at env) (start_time env).

Definition with_first_err (l : string) (o : Outcome) : Outcome :=
  mkOutcome (exit_code o) (stdout o) (l :: stderr o).

Definition usage_error (msg : string) : Outcome :=
  mkOutcome 2 [] ["Error: " ++ describe (Usage msg)]%string.

(** The outcome of [run-applescript] once the joined source is known. *)
Definition script_outcome (r : ScriptResult) : Outcome :=
  match r with
  | ScriptInvalid => mkOutcome 2 [] ["Error: " ++ describe (NSErr "applescript" 2 "Invalid AppleScript")]%string
  | ScriptError m => mkOutcome 2 [] ["Error: " ++ describe (NSErr "applescript" 1 m)]%string
  | ScriptOutput out => mkOutcome 0 (if String.eqb out "" then [] else [out]) []
  end.

(** Decimal numerals: a list of digits written with ['0'..'9'], and its
    value. *)
Definition string_of_digits (ds : list nat) : string :=
  fold_right (fun d s => String (ascii_of_nat (48 + d)) s) EmptyString ds.

Definition digits_number (ds : list nat) : Z :=
  fold_left (fun acc d => acc * 10 + Z.of_nat d)%Z ds 0%Z.

(** How a run of the helper can end. *)
Definition outcome_shape (usage : list string) (o : Outcome) : Prop :=
  (exit_code o = 1%Z /\ stdout o = usage /\ stderr o = [])
  \/ (exit_code o = 0%Z /\ (stderr o = [] \/ stderr o = [ax_warning]))
  \/ (exit_code o = 2%Z /\ stdout o = []
      /\ exists e, stderr o = ["Error: " ++ describe e]%string
                   \/ stderr o = [ax_warning; "Error: " ++ describe e]%string).

(** A machine where the button appears at the fourth poll
    (iteration 3) and [current date] reads [i] seconds at iteration [i]. *)
Definition found_env : Env :=
  mkEnv true (fun _ => false) (fun _ => ScriptInvalid)
        (fun i => Some (Nat.eqb i 3)) (fun _ => None) (fun i => Z.of_nat i) 0%Z.

(** A command body that ends normally or throws, with at most the
    accessibility warning on stderr and, when it throws, nothing on stdout. *)
Definition body_ok (b : Throws unit) : Prop :=
  (exists outs w, b no_output = (mkOut outs w, inl tt) /\ (w = [] \/ w = [ax_warning]))
  \/ (exists w e, b no_output = (mkOut [] w, inr e) /\ (w = [] \/ w = [ax_warning])).

(* ------------------------------------------------------------------ *)
(** ** CommandBar: input, submission, hints and the steps panel *)

(** A JavaScript string as its UTF-16 code units. *)
Definition JsString : Type := list N.

(** ECMAScript [WhiteSpace] and [LineTerminator] code points, the ones
    [String.prototype.trim] removes. *)
Definition js_whitespace : list N :=
  [9; 10; 11; 12; 13; 32; 160; 5760; 8192; 8193; 8194; 8195; 8196; 8197;
   8198; 8199; 8200; 8201; 8202; 8232; 8233; 8239; 8287; 12288; 65279]%N.

Definition is_js_whitespace (c : N) : bool := existsb (N.eqb c) js_whitespace.

Fixpoint trim_start (s : JsString) : JsString :=
  match s with
  | [] => []
  | c :: s' => if is_js_whitespace c then trim_start s' else s
  end.

Definition trim_end (s : JsString) : JsString := rev (trim_start (rev s)).

(** [s.trim()]. *)
Definition js_trim (s : JsString) : JsString := trim_end (trim_start s).

(** A JavaScript string is falsy exactly when it is empty. *)
Definition js_empty (s : JsString) : bool :=
  match s with [] => true | _ => false end.

Definition idleHints : list string :=
  ["Open app: Safari"; "Search files: build.sh"; "Run tests";
   "Create Jira ticket"; "Summarize this page"].

(** The state of the [CommandBar] component. *)
Record CommandBarUI : Type := mkCommandBarUI {
  input : JsString;
  isLoading : bool;
  isFocused : bool;
  hintIndex : nat;
  bar : CommandBarState
}.

Definition initial_ui : CommandBarUI :=
  mkCommandBarUI [] false false 0 (mkCommandBarState [] false).

(** [handleSubmit] up to [await runCommand(...)]: the guard
    [if (!input.trim() || isLoading) return;], then [setIsLoading(true)]
    and the command sent. *)
Definition submit_start (st : CommandBarUI) : option (CommandBarUI * JsString) :=
  if js_empty (js_trim (input st)) || isLoading st then None
  else Some (mkCommandBarUI (input st) true (isFocused st) (hintIndex st) (bar st),
             js_trim (input st)).

(** The rest of [handleSubmit] once [runCommand] has resolved ([true]) or
    rejected ([false]): [setInput(""); setIsStepsOpen(true)] on success,
    then [setIsLoading(false)] in [finally]. *)
Definition submit_finish (ok : bool) (st : CommandBarUI) : CommandBarUI :=
  if ok then mkCommandBarUI [] false (isFocused st) (hintIndex st)
               (mkCommandBarState (events (bar st)) true)
  else mkCommandBarUI (input st) false (isFocused st) (hintIndex st) (bar st).

(** [const shouldRotate = !isFocused && input.trim().length === 0]. *)
Definition shouldRotate (st : CommandBarUI) : bool :=
  negb (isFocused st) && Nat.eqb (length (js_trim (input st))) 0.

(** One tick of the [setInterval] installed while [shouldRotate] holds:
    [setHintIndex((prev) => (prev + 1) % idleHints.length)]. *)
Definition hint_tick (st : CommandBarUI) : CommandBarUI :=
  if shouldRotate st
  then mkCommandBarUI (input st) (isLoading st) (isFocused st)
         (Nat.modulo (S (hintIndex st)) (length idleHints)) (bar st)
  else st.

(** What can happen to the component: typing (the input is [disabled]
    while loading), focus and blur, a hint tick, a step event, the
    steps toggle and close buttons, and the two halves of a submit. *)
Inductive UiAction : Type :=
| TypeText (v : JsString)
| Focus
| Blur
| HintTick
| StepMsg (ev : UiStepEvent)
| ToggleSteps
| CloseSteps
| SubmitStart
| SubmitFinish (ok : bool).

Definition ui_step (st : CommandBarUI) (a : UiAction) : CommandBarUI :=
  match a with
  | TypeText v =>
      if isLoading st then st
      else mkCommandBarUI v (isLoading st) (isFocused st) (hintIndex st) (bar st)
  | Focus => mkCommandBarUI (input st) (isLoading st) true (hintIndex st) (bar st)
  | Blur => mkCommandBarUI (input st) (isLoading st) false (hintIndex st) (bar st)
  | HintTick => hint_tick st
  | StepMsg ev => mkCommandBarUI (input st) (isLoading st) (isFocused st) (hintIndex st)
                    (on_step_event (bar st) ev)
  | ToggleSteps => mkCommandBarUI (input st) (isLoading st) (isFocused st) (hintIndex st)
                     (mkCommandBarState (events (bar st)) (negb (isStepsOpen (bar st))))
  | CloseSteps => mkCommandBarUI (input st) (isLoading st) (isFocused st) (hintIndex st)
                    (mkCommandBarState (events (bar st)) false)
  | SubmitStart => match submit_start st with Some (st', _) => st' | None => st end
  | SubmitFinish ok => submit_finish ok st
  end.

(** [const recentEvents = events.slice(-50)]. *)
Definition recentEvents {A} (evs : list A) : list A := skipn (length evs - 50) evs.

Definition utf8_3 (a b c : nat) : string :=
  String (ascii_of_nat a) (String (ascii_of_nat b) (String (ascii_of_nat c) EmptyString)).

(** [getStatusColor]. *)
Definition getStatusColor (status : string) : string :=
  if String.eqb status "ok" then "text-green-400"
  else if String.eqb status "error" then "text-red-400"
  else if String.eqb status "running" then "text-yellow-400"
  else "text-white/70".

(** [getStatusIcon]: check mark, ballot x, black circle, white circle. *)
Definition getStatusIcon (status : string) : string :=
  if String.eqb status "ok" then utf8_3 226 156 147
  else if String.eqb status "error" then utf8_3 226 156 151
  else if String.eqb status "running" then utf8_3 226 151 143
  else utf8_3 226 151 139.

(* ------------------------------------------------------------------ *)
(** ** Concrete inputs *)

(** A tool layer on which [create_files] succeeds and every other tool
    fails. *)
Definition demo_invoke (w : unit) (tc : ToolCall) : unit * ToolResult :=
  if String.eqb (tool_name tc) "create_files"
  then (w, mkToolResult true "done")
  else (w, mkToolResult false "failed").

(** Subscribe, submit a two-step plan and advance it until its first step
    has failed. *)
Definition demo_ops : list Op :=
  [Subscribe; Submit "open calculator and open notes"; Advance 1; Advance 1; Advance 1].

Definition demo_state : @Sys unit := exec demo_invoke demo_ops (init tt).

Definition no_run : Run := new_run 0 0 [].
Definition no_observer : Observer := mkObserver 0 0 [].
Definition no_event : StepEvent := mkStepEvent 0 0 SQueued "" 0.

(** A machine where accessibility is granted, no application launches, the
    polled element never exists and [current date] reads [i] seconds at
    the i-th iteration. *)
Definition demo_env : Env :=
  mkEnv true (fun _ => false) (fun _ => ScriptInvalid)
        (fun _ => Some false) (fun _ => None) (fun i => Z.of_nat i) 0%Z.

(* ------------------------------------------------------------------ *)
(** ** Run invariant *)

Definition ev_proj (e : StepEvent) : nat * StepStatus := (ev_step_id e, ev_status e).

Definition out_proj (e : nat * StepStatus * string) : nat * StepStatus :=
  let '(sid, st, _) := e in (sid, st).

(** The transitions a step has gone through, as (step_id, status) pairs:
    a step that is [ok] went through [running] then [ok]. *)
Definition trans (s : Step) : list (nat * StepStatus) :=
  match status s with
  | SQueued => []
  | SRunning => [(step_id s, SRunning)]
  | SOk => [(step_id s, SRunning); (step_id s, SOk)]
  | SError => [(step_id s, SRunning); (step_id s, SError)]
  end.

Definition transitions (l : list Step) : list (nat * StepStatus) := flat_map trans l.

(** Allowed change of one step between two states. *)
Definition status_next (a b : StepStatus) : Prop :=
  a = b \/ (a = SQueued /\ b = SRunning) \/ (a = SRunning /\ b = SOk)
  \/ (a = SRunning /\ b = SError).

Definition step_next (a b : Step) : Prop :=
  step_id a = step_id b /\ tool_call a = tool_call b /\ status_next (status a) (status b).

Definition mid_ok (mid : list Step) : Prop :=
  mid = [] \/ exists m, mid = [m] /\ (status m = SRunning \/ status m = SError).

(** A run's steps are some [ok] steps, at most one [running] or [error]
    step, then [queued] steps; the run is failed exactly when that middle
    step is an error, and completed only when every step is ok. *)
Definition run_shape (r : Run) : Prop :=
  exists oks mid qs,
    steps r = oks ++ mid ++ qs
    /\ Forall (fun s => status s = SOk) oks
    /\ Forall (fun s => status s = SQueued) qs
    /\ mid_ok mid
    /\ (rstatus r = RFailed <-> exists m, mid = [m] /\ status m = SError)
    /\ (rstatus r = RCompleted -> mid = [] /\ qs = []).

Definition run_inv (r : Run) : Prop :=
  map step_id (steps r) = seq 1 (length (steps r))
  /\ map tool_call (steps r) = plan r
  /\ run_shape r.

Definition status_after (res : ToolResult) : StepStatus :=
  if res_ok res then SOk else SError.

(** Events of the system log. *)

Fixpoint stamp (rid : nat) (es : list (nat * StepStatus * string)) (t : nat) : list StepEvent :=
  match es with
  | [] => []
  | (sid, st, msg) :: es' => mkStepEvent rid sid st msg t :: stamp rid es' (S t)
  end.

Definition ev_of (rid : nat) (e : StepEvent) : bool := Nat.eqb (ev_run_id e) rid.

Definition sys_inv {World : Type} (s : @Sys World) : Prop :=
  (forall r, In r (runs s) ->
     run_inv r /\ run_id r < next_run s
     /\ map ev_proj (filter (ev_of (run_id r)) (log s)) = transitions (steps r))
  /\ NoDup (map run_id (runs s))
  /\ (forall e, In e (log s) ->
        ev_timestamp e < clock s /\ exists r, In r (runs s) /\ run_id r = ev_run_id e)
  /\ (forall o, In o (observers s) ->
        obs_since o <= clock s /\ obs_handle o < next_handle s
        /\ (exists pre, log s = pre ++ inbox o)
        /\ (forall e, In e (inbox o) -> obs_since o <= ev_timestamp e))
  /\ NoDup (map obs_handle (observers s)).

(** The plan of the run created by submitting [c], and the synchronous
    rejection of [c]. *)

Definition submitted_plan {World : Type} (invoke : World -> ToolCall -> World * ToolResult)
  (s : @Sys World) (c : string) : option Plan :=
  match step_sys invoke (Submit c) s with
  | (RunAccepted id, s') => option_map plan (find_run id (runs s'))
  | _ => None
  end.

Definition rejection {World : Type} (invoke : World -> ToolCall -> World * ToolResult)
  (s : @Sys World) (c : string) : option PlanError :=
  match fst (step_sys invoke (Submit c) s) with
  | Rejected e => Some e
  | _ => None
  end.

(* ------------------------------------------------------------------ *)
(** ** Planner examples *)

Example parse_scenario_A :
  parse "create 3 files in documents" = inl [create_files_call 3 "documents"].
Proof. reflexivity. Qed.

Example parse_scenario_C :
  parse "create 2 files then open notion"
  = inl [create_files_call 2 default_dir; open_app_call "notion"].
Proof. reflexivity. Qed.

Example parse_scenario_D : parse "frobnicate the whatsit" = inr UnparseableCommand.
Proof. reflexivity. Qed.

(* ------------------------------------------------------------------ *)
(** ** Run invariant lemmas *)

Lemma enumerate_ids : forall p k, map step_id (enumerate k p) = seq k (length p).
Proof. induction p as [|tc p IH]; intros k; simpl; [reflexivity | now rewrite IH]. Qed.

Lemma enumerate_calls : forall p k, map tool_call (enumerate k p) = p.
Proof. induction p as [|tc p IH]; intros k; simpl; [reflexivity | now rewrite IH]. Qed.

Lemma enumerate_queued : forall p k, Forall (fun s => status s = SQueued) (enumerate k p).
Proof. induction p as [|tc p IH]; intros k; simpl; constructor; auto. Qed.

Lemma enumerate_length : forall p k, length (enumerate k p) = length p.
Proof. induction p as [|tc p IH]; intros k; simpl; auto. Qed.

Lemma new_run_inv : forall id t p, run_inv (new_run id t p).
Proof.
  intros id t p. unfold run_inv, new_run; simpl.
  rewrite enumerate_ids, enumerate_calls, enumerate_length.
  split; [reflexivity | split; [reflexivity |]].
  exists [], [], (enumerate 1 p); simpl.
  split; [reflexivity|]. split; [constructor|]. split; [apply enumerate_queued|].
  split; [now left|]. split.
  - split; [discriminate | intros [m [Hm _]]; discriminate].
  - discriminate.
Qed.

Lemma transitions_app : forall l1 l2,
  transitions (l1 ++ l2) = transitions l1 ++ transitions l2.
Proof. intros. unfold transitions. now rewrite flat_map_app. Qed.

Lemma transitions_queued : forall l,
  Forall (fun s => status s = SQueued) l -> transitions l = [].
Proof.
  induction 1 as [|s l Hs _ IH]; [reflexivity|].
  unfold transitions in *; simpl. unfold trans at 1. now rewrite Hs, IH.
Qed.

Lemma find_app_none : forall {A} (f : A -> bool) l1 l2,
  Forall (fun x => f x = false) l1 -> find f (l1 ++ l2) = find f l2.
Proof. induction 1 as [|x l Hx _ IH]; simpl; [reflexivity | now rewrite Hx]. Qed.

Lemma find_none_all : forall {A} (f : A -> bool) l,
  Forall (fun x => f x = false) l -> find f l = None.
Proof. induction 1 as [|x l Hx _ IH]; simpl; [reflexivity | now rewrite Hx]. Qed.

Lemma Forall_status_neq : forall (l : list Step) a b,
  Forall (fun s => status s = a) l -> a <> b ->
  Forall (fun s => StepStatus_eqb (status s) b = false) l.
Proof.
  intros l a b H Hab. eapply Forall_impl; [|exact H].
  intros s Hs; rewrite Hs. destruct a, b; simpl; congruence.
Qed.

Lemma set_status_other : forall id st l,
  ~ In id (map step_id l) -> set_status id st l = l.
Proof.
  induction l as [|s l IH]; intros Hn; simpl in *; [reflexivity|].
  destruct (Nat.eqb_spec (step_id s) id) as [E|E].
  - exfalso; apply Hn; now left.
  - f_equal. apply IH. intros H; apply Hn; now right.
Qed.

Lemma set_status_mid : forall l1 m l2 st,
  NoDup (map step_id (l1 ++ m :: l2)) ->
  set_status (step_id m) st (l1 ++ m :: l2)
  = l1 ++ mkStep (step_id m) (tool_call m) st :: l2.
Proof.
  intros l1 m l2 st Hnd. rewrite map_app in Hnd. simpl in Hnd.
  apply NoDup_remove in Hnd as [Hnd Hnotin].
  rewrite in_app_iff in Hnotin.
  unfold set_status. rewrite map_app. simpl. rewrite Nat.eqb_refl.
  fold (set_status (step_id m) st l1). fold (set_status (step_id m) st l2).
  rewrite !set_status_other; auto.
Qed.

Lemma set_status_ids : forall id st l, map step_id (set_status id st l) = map step_id l.
Proof.
  intros. unfold set_status. rewrite map_map. apply map_ext.
  intros s; destruct (Nat.eqb (step_id s) id); reflexivity.
Qed.

Lemma set_status_calls : forall id st l, map tool_call (set_status id st l) = map tool_call l.
Proof.
  intros. unfold set_status. rewrite map_map. apply map_ext.
  intros s; destruct (Nat.eqb (step_id s) id); reflexivity.
Qed.

Lemma set_status_length : forall id st l, length (set_status id st l) = length l.
Proof. intros. unfold set_status. apply length_map. Qed.

Lemma has_queued_false : forall l,
  Forall (fun s => StepStatus_eqb (status s) SQueued = false) l -> has_queued l = false.
Proof.
  induction 1 as [|s l Hs _ IH]; simpl; [reflexivity|]. now rewrite Hs, IH.
Qed.

Lemma step_next_refl_list : forall l, Forall2 step_next l l.
Proof.
  induction l as [|s l IH]; constructor; auto.
  split; [reflexivity | split; [reflexivity | now left]].
Qed.

Lemma ids_NoDup : forall (l : list Step),
  map step_id l = seq 1 (length l) -> NoDup (map step_id l).
Proof. intros l H. rewrite H. apply seq_NoDup. Qed.

Lemma update_mid : forall oks m qs st,
  NoDup (map step_id (oks ++ m :: qs)) -> status_next (status m) st ->
  set_status (step_id m) st (oks ++ m :: qs) = oks ++ mkStep (step_id m) (tool_call m) st :: qs
  /\ Forall2 step_next (oks ++ m :: qs) (oks ++ mkStep (step_id m) (tool_call m) st :: qs).
Proof.
  intros oks m qs st Hnd Hn. split; [now apply set_status_mid|].
  apply Forall2_app; [apply step_next_refl_list|].
  constructor; [|apply step_next_refl_list].
  split; [reflexivity | split; [reflexivity | exact Hn]].
Qed.

Lemma trans_mid : forall oks id tc st qs,
  Forall (fun s => status s = SQueued) qs ->
  transitions (oks ++ mkStep id tc st :: qs) = transitions oks ++ trans (mkStep id tc st).
Proof.
  intros oks id tc st qs Hq. rewrite transitions_app.
  change (transitions (mkStep id tc st :: qs)) with (trans (mkStep id tc st) ++ transitions qs).
  rewrite (transitions_queued qs Hq). now rewrite app_nil_r.
Qed.

Section RunFacts.

Context {World : Type}.
Context (invoke : World -> ToolCall -> World * ToolResult).

Lemma run_step_cases : forall w r w' r' es,
  run_inv r -> run_step invoke w r = Some (w', r', es) ->
  exists oks, Forall (fun s => status s = SOk) oks /\
  ( (* empty remainder: the run completes *)
    (steps r = oks /\ w' = w /\ r' = with_run r RCompleted oks /\ es = [])
  \/ (* dequeue the first queued step *)
    (exists q qs, steps r = oks ++ q :: qs /\ status q = SQueued
       /\ Forall (fun s => status s = SQueued) qs /\ w' = w
       /\ r' = with_run r RRunning (oks ++ mkStep (step_id q) (tool_call q) SRunning :: qs)
       /\ es = [(step_id q, SRunning, ("Running " ++ tool_name (tool_call q))%string)])
  \/ (* finish the step in flight *)
    (exists m qs res, steps r = oks ++ m :: qs /\ status m = SRunning
       /\ Forall (fun s => status s = SQueued) qs /\ invoke w (tool_call m) = (w', res)
       /\ r' = with_run r
                (if res_ok res then (match qs with [] => RCompleted | _ => RRunning end)
                 else RFailed)
                (oks ++ mkStep (step_id m) (tool_call m) (status_after res) :: qs)
       /\ es = [(step_id m, status_after res, res_message res)])).
Proof.
  intros w r w' r' es [Hids [Hcalls [oks [mid [qs [Heq [Hoks [Hqs [Hmid [Hfail Hcomp]]]]]]]]]] Hst.
  assert (Hnd : NoDup (map step_id (steps r))) by now apply ids_NoDup.
  rewrite Heq in Hnd.
  assert (Hoks_nr : Forall (fun s => StepStatus_eqb (status s) SRunning = false) oks)
    by (apply (Forall_status_neq _ SOk); [assumption | discriminate]).
  assert (Hoks_nq : Forall (fun s => StepStatus_eqb (status s) SQueued = false) oks)
    by (apply (Forall_status_neq _ SOk); [assumption | discriminate]).
  assert (Hqs_nr : Forall (fun s => StepStatus_eqb (status s) SRunning = false) qs)
    by (apply (Forall_status_neq _ SQueued); [assumption | discriminate]).
  exists oks. split; [exact Hoks|].
  unfold run_step in Hst.
  assert (Hnt : rstatus r <> RCompleted /\ rstatus r <> RFailed)
    by (destruct (rstatus r); split; discriminate).
  destruct (rstatus r) eqn:Hrs; try discriminate;
    destruct Hmid as [-> | [m [-> Hm]]].
  1,3: (* no step in flight *)
    rewrite Heq in Hst; simpl in Hst;
    rewrite find_none_all in Hst by (apply Forall_app; split; assumption);
    rewrite find_app_none in Hst by assumption;
    destruct qs as [|q qs'];
    [ simpl in Hst; inversion Hst; subst; left;
      rewrite Heq; simpl; rewrite app_nil_r; auto
    | inversion Hqs as [|q0 qs0 Hq Hqs' E]; subst q0 qs0;
      simpl in Hst; rewrite Hq in Hst; simpl in Hst;
      inversion Hst; subst; right; left; exists q, qs';
      simpl in Hnd; rewrite Heq; simpl; rewrite set_status_mid by assumption; auto 10 ].
  all: (* a step in flight *)
    destruct Hm as [Hm | Hm];
    [ | exfalso; destruct Hfail as [_ Hf];
        specialize (Hf (ex_intro _ m (conj eq_refl Hm))); discriminate ];
    rewrite Heq in Hst; simpl in Hst;
    rewrite find_app_none in Hst by assumption; simpl in Hst; rewrite Hm in Hst; simpl in Hst;
    destruct (invoke w (tool_call m)) as [w1 res] eqn:Hinv;
    right; right; exists m, qs, res; rewrite Heq; simpl;
    simpl in Hnd; unfold status_after;
    destruct (res_ok res) eqn:Hok; inversion Hst; subst;
    rewrite set_status_mid by assumption;
    (split; [reflexivity|]); (split; [assumption|]); (split; [assumption|]);
    (split; [assumption|]); (split; [|reflexivity]); try reflexivity;
    f_equal; simpl; destruct qs as [|q qs'];
    [ rewrite has_queued_false; [reflexivity|]; apply Forall_app; split;
      [ apply (Forall_status_neq _ SOk); [assumption | discriminate]
      | constructor; [reflexivity | constructor] ]
    | inversion Hqs as [|q0 qs0 Hq _ E]; subst q0 qs0;
      unfold has_queued; rewrite existsb_app; simpl; rewrite Hq; simpl;
      now rewrite orb_true_r ].
Qed.

Lemma mid_maps : forall oks q qs st,
  map step_id (oks ++ mkStep (step_id q) (tool_call q) st :: qs) = map step_id (oks ++ q :: qs)
  /\ map tool_call (oks ++ mkStep (step_id q) (tool_call q) st :: qs)
     = map tool_call (oks ++ q :: qs)
  /\ length (oks ++ mkStep (step_id q) (tool_call q) st :: qs) = length (oks ++ q :: qs).
Proof. intros. rewrite !map_app, !length_app. simpl. auto. Qed.

(** One scheduling step keeps the run invariant, changes each step along
    [status_next] only, and the events it emits extend the run's
    transition history. *)
Lemma run_step_spec : forall w r w' r' es,
  run_inv r -> run_step invoke w r = Some (w', r', es) ->
  run_inv r' /\ run_id r' = run_id r /\ plan r' = plan r
  /\ Forall2 step_next (steps r) (steps r')
  /\ transitions (steps r') = transitions (steps r) ++ map out_proj es.
Proof.
  intros w r w' r' es Hinv Hst.
  pose proof (run_step_cases w r w' r' es Hinv Hst)
    as [oks [Hoks [[E [_ [-> ->]]] | [[q [qs [E [Hq [Hqs [_ [-> ->]]]]]]]
                                  | [m [qs [res [E [Hm [Hqs [_ [-> ->]]]]]]]]]]]].
  - destruct Hinv as [Hids [Hcalls _]]. unfold with_run, run_inv, run_shape; cbn [steps plan run_id rstatus].
    rewrite <- E. split; [|split; [reflexivity|split; [reflexivity|split]]].
    + split; [assumption | split; [assumption|]].
      exists oks, [], []; simpl. rewrite app_nil_r.
      split; [exact E|]. split; [exact Hoks|]. split; [constructor|].
      split; [now left|]. split; [|auto].
      split; [discriminate | intros [m [Hm _]]; discriminate].
    + apply step_next_refl_list.
    + simpl. now rewrite app_nil_r.
  - destruct Hinv as [Hids [Hcalls _]]. unfold with_run, run_inv, run_shape; cbn [steps plan run_id rstatus].
    assert (Hnd : NoDup (map step_id (steps r))) by now apply ids_NoDup.
    rewrite E in Hids, Hcalls, Hnd |- *.
    destruct (mid_maps oks q qs SRunning) as [M1 [M2 M3]].
    split; [|split; [reflexivity|split; [reflexivity|split]]].
    + split; [rewrite M1, M3; exact Hids|]. split; [rewrite M2; exact Hcalls|].
      exists oks, [mkStep (step_id q) (tool_call q) SRunning], qs; simpl.
      split; [reflexivity|]. split; [exact Hoks|]. split; [exact Hqs|].
      split; [right; eexists; split; [reflexivity | now left]|].
      split; [|discriminate].
      split; [discriminate | intros [m [Hm1 Hm2]]; inversion Hm1; subst; discriminate].
    + apply (update_mid oks q qs SRunning Hnd). right; left; auto.
    + rewrite trans_mid by assumption. rewrite transitions_app.
      rewrite (transitions_queued (q :: qs)) by (constructor; assumption).
      rewrite app_nil_r. reflexivity.
  - destruct Hinv as [Hids [Hcalls _]]. unfold with_run, run_inv, run_shape; cbn [steps plan run_id rstatus].
    assert (Hnd : NoDup (map step_id (steps r))) by now apply ids_NoDup.
    rewrite E in Hids, Hcalls, Hnd |- *.
    destruct (mid_maps oks m qs (status_after res)) as [M1 [M2 M3]].
    split; [|split; [reflexivity|split; [reflexivity|split]]].
    + split; [rewrite M1, M3; exact Hids|]. split; [rewrite M2; exact Hcalls|].
      unfold status_after; destruct (res_ok res).
      * exists (oks ++ [mkStep (step_id m) (tool_call m) SOk]), [], qs; simpl.
        rewrite <- app_assoc. split; [reflexivity|].
        split; [apply Forall_app; split; [exact Hoks | constructor; [reflexivity | constructor]]|].
        split; [exact Hqs|]. split; [now left|].
        split; [destruct qs; split; try discriminate; intros [m0 [Hm0 _]]; discriminate|].
        destruct qs; [auto | discriminate].
      * exists oks, [mkStep (step_id m) (tool_call m) SError], qs; simpl.
        split; [reflexivity|]. split; [exact Hoks|]. split; [exact Hqs|].
        split; [right; eexists; split; [reflexivity | now right]|].
        split; [|discriminate].
        split; [intros _; eexists; split; [reflexivity | reflexivity] | reflexivity].
    + apply (update_mid oks m qs (status_after res) Hnd).
      unfold status_after; rewrite Hm; destruct (res_ok res); [right; right; left | right; right; right]; auto.
    + rewrite trans_mid by assumption. rewrite (transitions_app oks (m :: qs)).
      change (transitions (m :: qs)) with (trans m ++ transitions qs).
      rewrite (transitions_queued qs Hqs), app_nil_r, <- app_assoc. f_equal.
      unfold trans; simpl; rewrite Hm.
      unfold status_after; destruct (res_ok res); reflexivity.
Qed.

End RunFacts.

(* ------------------------------------------------------------------ *)
(** ** System invariant lemmas *)

Lemma stamp_facts : forall rid es t e, In e (stamp rid es t) ->
  ev_run_id e = rid /\ t <= ev_timestamp e < t + length es.
Proof.
  intros rid es; induction es as [|[[sid st] msg] es IH]; intros t e Hin; simpl in Hin.
  - contradiction.
  - destruct Hin as [<- | Hin]; simpl.
    + split; [reflexivity | lia].
    + destruct (IH (S t) e Hin) as [H1 H2]. split; [assumption | lia].
Qed.

Lemma stamp_proj : forall rid es t, map ev_proj (stamp rid es t) = map out_proj es.
Proof.
  intros rid es; induction es as [|[[sid st] msg] es IH]; intros t; simpl; [reflexivity|].
  now rewrite IH.
Qed.

Lemma filter_stamp_same : forall rid es t, filter (ev_of rid) (stamp rid es t) = stamp rid es t.
Proof.
  intros. apply forallb_filter_id. apply forallb_forall.
  intros e He. apply stamp_facts in He as [He _]. unfold ev_of. now apply Nat.eqb_eq.
Qed.

Lemma filter_stamp_other : forall rid rid' es t,
  rid' <> rid -> filter (ev_of rid') (stamp rid es t) = [].
Proof.
  intros rid rid' es; induction es as [|[[sid st] msg] es IH]; intros t Hne; simpl;
    [reflexivity|].
  unfold ev_of at 1; simpl. destruct (Nat.eqb_spec rid rid'); [congruence|]. auto.
Qed.

Lemma filter_stamp_other_ev : forall rid es t rid',
  Nat.eqb rid' rid = false -> filter (ev_of rid') (stamp rid es t) = [].
Proof. intros. apply filter_stamp_other. now apply Nat.eqb_neq. Qed.

Section SysFacts.

Context {World : Type}.
Context (invoke : World -> ToolCall -> World * ToolResult).

Lemma publish_all_spec : forall rid es (s : @Sys World),
  publish_all rid es s =
  mkSys (world s) (runs s) (next_run s)
        (map (fun o => mkObserver (obs_handle o) (obs_since o) (inbox o ++ stamp rid es (clock s)))
             (observers s))
        (next_handle s) (clock s + length es) (log s ++ stamp rid es (clock s)).
Proof.
  intros rid es; induction es as [|[[sid st] msg] es IH]; intros s; simpl.
  - destruct s as [w rs nr obs nh c lg]; simpl. rewrite app_nil_r, Nat.add_0_r.
    f_equal. transitivity (map (fun o => o) obs); [symmetry; apply map_id|].
    apply map_ext. intros [h t ib]; simpl; now rewrite app_nil_r.
  - rewrite IH. unfold publish; simpl. f_equal.
    + rewrite map_map. apply map_ext. intros o; simpl. now rewrite <- app_assoc.
    + lia.
    + now rewrite <- app_assoc.
Qed.

Lemma in_replace_run : forall r' rs x,
  In x (replace_run r' rs) -> x = r' \/ (In x rs /\ run_id x <> run_id r').
Proof.
  intros r' rs x Hin. unfold replace_run in Hin. apply in_map_iff in Hin as [r0 [E Hr0]].
  destruct (Nat.eqb_spec (run_id r0) (run_id r')) as [Eq|Ne]; subst; [now left|].
  right; auto.
Qed.

Lemma replace_run_image : forall r' rs x,
  In x rs -> exists y, In y (replace_run r' rs) /\ run_id y = run_id x.
Proof.
  intros r' rs x Hin. exists (if Nat.eqb (run_id x) (run_id r') then r' else x).
  split; [unfold replace_run; now apply (in_map (fun r0 => if Nat.eqb (run_id r0) (run_id r') then r' else r0))|].
  destruct (Nat.eqb_spec (run_id x) (run_id r')); auto.
Qed.

Lemma replace_run_ids : forall r' rs, map run_id (replace_run r' rs) = map run_id rs.
Proof.
  intros. unfold replace_run. rewrite map_map. apply map_ext.
  intros r0. destruct (Nat.eqb_spec (run_id r0) (run_id r')); auto.
Qed.

Lemma NoDup_snoc : forall (l : list nat) x, NoDup l -> ~ In x l -> NoDup (l ++ [x]).
Proof.
  intros l x Hl Hx. apply NoDup_app; auto using NoDup_cons, NoDup_nil.
  intros a Ha [<- | []]. contradiction.
Qed.

Lemma NoDup_map_filter : forall {A} (f : A -> nat) p l,
  NoDup (map f l) -> NoDup (map f (filter p l)).
Proof.
  intros A f p l; induction l as [|a l IH]; intros H; simpl; [constructor|].
  inversion H as [|x y Hn Hnd]; subst.
  destruct (p a); simpl; auto.
  constructor; auto. intros Hin; apply Hn.
  apply in_map_iff in Hin as [b [Eb Hb]]. apply filter_In in Hb as [Hb _].
  rewrite <- Eb. now apply in_map.
Qed.

Lemma filter_none : forall {A} (p : A -> bool) l,
  (forall x, In x l -> p x = false) -> filter p l = [].
Proof.
  intros A p l; induction l as [|a l IH]; intros H; simpl; [reflexivity|].
  rewrite H by now left. apply IH. intros x Hx; apply H; now right.
Qed.

Lemma submit_inv : forall c (s : @Sys World),
  sys_inv s -> sys_inv (snd (step_sys invoke (Submit c) s)).
Proof.
  intros c s Hs. simpl. destruct (parse c) as [p|e]; simpl; [|exact Hs].
  destruct Hs as [S1 [S2 [S3 [S4 S5]]]]. unfold sys_inv; simpl.
  split; [|split; [|split; [|split]]].
  - intros r Hr. apply in_app_or in Hr as [Hr | [<- | []]].
    + destruct (S1 r Hr) as [A [B C]]. split; [exact A | split; [lia | exact C]].
    + split; [apply new_run_inv|]. split; [simpl; lia|]. simpl.
      rewrite filter_none.
      * simpl. symmetry. apply transitions_queued, enumerate_queued.
      * intros e He. destruct (S3 e He) as [_ [r0 [Hr0 E]]].
        destruct (S1 r0 Hr0) as [_ [Lt _]]. unfold ev_of.
        apply Nat.eqb_neq. lia.
  - rewrite map_app. apply NoDup_snoc; [exact S2|].
    intros Hin. apply in_map_iff in Hin as [r [E Hr]].
    destruct (S1 r Hr) as [_ [Lt _]]. simpl in E. lia.
  - intros e He. destruct (S3 e He) as [T [r [Hr E]]]. split; [exact T|].
    exists r. split; [apply in_or_app; now left | exact E].
  - exact S4.
  - exact S5.
Qed.

Lemma advance_inv : forall rid (s : @Sys World),
  sys_inv s -> sys_inv (snd (step_sys invoke (Advance rid) s)).
Proof.
  intros rid s Hs. simpl.
  destruct (find_run rid (runs s)) as [r|] eqn:Hf; [|exact Hs].
  destruct (run_step invoke (world s) r) as [[[w' r'] es]|] eqn:Hrs; [|exact Hs].
  simpl. rewrite publish_all_spec. simpl.
  apply find_some in Hf as [Hr Hid]. apply Nat.eqb_eq in Hid. subst rid.
  destruct Hs as [S1 [S2 [S3 [S4 S5]]]].
  destruct (S1 r Hr) as [Ir [Lr Fr]].
  destruct (run_step_spec invoke (world s) r w' r' es Ir Hrs) as [Ir' [Id' [Pl' [Fw Tr]]]].
  unfold sys_inv; simpl.
  split; [|split; [|split; [|split]]].
  - intros x Hx. apply in_replace_run in Hx as [-> | [Hx Hne]].
    + split; [exact Ir'|]. split; [rewrite Id'; exact Lr|].
      rewrite Id', filter_app, map_app, filter_stamp_same, stamp_proj, Fr, Tr.
      reflexivity.
    + destruct (S1 x Hx) as [A [B C]]. split; [exact A|]. split; [exact B|].
      rewrite filter_app, map_app, C, filter_stamp_other; [apply app_nil_r|].
      rewrite <- Id'. exact Hne.
  - rewrite replace_run_ids. exact S2.
  - intros e He. apply in_app_or in He as [He | He].
    + destruct (S3 e He) as [T [x [Hx Ex]]]. split; [lia|].
      destruct (replace_run_image r' (runs s) x Hx) as [y [Hy Ey]].
      exists y; split; [exact Hy | congruence].
    + apply stamp_facts in He as [Er Te]. split; [lia|].
      exists r'. split; [|congruence].
      unfold replace_run; apply in_map_iff; exists r.
      rewrite <- Id', Nat.eqb_refl. split; [reflexivity | exact Hr].
  - intros o' Ho'. apply in_map_iff in Ho' as [o [<- Ho]]. simpl.
    destruct (S4 o Ho) as [A [B [[pre C] D]]].
    split; [lia|]. split; [exact B|].
    split; [exists pre; rewrite C, app_assoc; reflexivity|].
    intros e He; apply in_app_or in He as [He|He]; [auto|].
    apply stamp_facts in He; lia.
  - rewrite map_map. simpl. exact S5.
Qed.

Lemma subscribe_inv : forall (s : @Sys World),
  sys_inv s -> sys_inv (snd (step_sys invoke Subscribe s)).
Proof.
  intros s [S1 [S2 [S3 [S4 S5]]]]. unfold sys_inv; simpl.
  split; [exact S1|]. split; [exact S2|]. split; [exact S3|]. split.
  - intros o Ho. apply in_app_or in Ho as [Ho | [<- | []]].
    + destruct (S4 o Ho) as [A [B CD]]. split; [exact A | split; [lia | exact CD]].
    + simpl. split; [lia|]. split; [lia|].
      split; [exists (log s); now rewrite app_nil_r | contradiction].
  - rewrite map_app. apply NoDup_snoc; [exact S5|].
    intros Hin. apply in_map_iff in Hin as [o [E Ho]].
    destruct (S4 o Ho) as [_ [B _]]. simpl in E. lia.
Qed.

Lemma unsubscribe_inv : forall h (s : @Sys World),
  sys_inv s -> sys_inv (snd (step_sys invoke (Unsubscribe h) s)).
Proof.
  intros h s [S1 [S2 [S3 [S4 S5]]]]. unfold sys_inv; simpl.
  split; [exact S1|]. split; [exact S2|]. split; [exact S3|]. split.
  - intros o Ho. apply filter_In in Ho as [Ho _]. exact (S4 o Ho).
  - now apply NoDup_map_filter.
Qed.

Lemma step_sys_inv : forall op (s : @Sys World),
  sys_inv s -> sys_inv (snd (step_sys invoke op s)).
Proof.
  intros [c | rid | | h] s Hs;
    auto using submit_inv, advance_inv, subscribe_inv, unsubscribe_inv.
Qed.

Lemma exec_inv : forall ops (s : @Sys World), sys_inv s -> sys_inv (exec invoke ops s).
Proof.
  induction ops as [|op ops IH]; intros s Hs; simpl; auto using step_sys_inv.
Qed.

Lemma init_inv : forall w : World, sys_inv (init w).
Proof.
  intros w. unfold sys_inv, init; simpl.
  repeat split; try contradiction; constructor.
Qed.

Lemma reachable_inv : forall (w : World) ops, sys_inv (exec invoke ops (init w)).
Proof. intros. apply exec_inv, init_inv. Qed.

End SysFacts.

(* ------------------------------------------------------------------ *)
(** ** Auxiliary facts for the claims *)

Lemma find_app_some : forall {A} (f : A -> bool) l1 l2 x,
  find f l1 = Some x -> find f (l1 ++ l2) = Some x.
Proof.
  intros A f l1; induction l1 as [|a l1 IH]; intros l2 x H; simpl in *; [discriminate|].
  destruct (f a); auto.
Qed.

Lemma NoDup_map_inj : forall {A} (f : A -> nat) l x y,
  NoDup (map f l) -> In x l -> In y l -> f x = f y -> x = y.
Proof.
  intros A f l; induction l as [|a l IH]; intros x y Hnd Hx Hy E; [contradiction|].
  inversion Hnd as [|b c Hn Hnd']; subst.
  destruct Hx as [<- | Hx], Hy as [<- | Hy]; auto.
  - exfalso; apply Hn. rewrite E. now apply in_map.
  - exfalso; apply Hn. rewrite <- E. now apply in_map.
Qed.

Lemma find_run_in : forall rs r,
  NoDup (map run_id rs) -> In r rs -> find_run (run_id r) rs = Some r.
Proof.
  intros rs r Hnd Hr. unfold find_run.
  destruct (find (fun r0 => Nat.eqb (run_id r0) (run_id r)) rs) as [r0|] eqn:Hf.
  - apply find_some in Hf as [Hr0 E]. apply Nat.eqb_eq in E.
    f_equal. eapply NoDup_map_inj; eauto.
  - exfalso. eapply find_none in Hf; [|exact Hr]. rewrite Nat.eqb_refl in Hf. discriminate.
Qed.

Lemma find_run_replace_other : forall id r' rs,
  id <> run_id r' -> find_run id (replace_run r' rs) = find_run id rs.
Proof.
  intros id r' rs Hne. unfold find_run, replace_run.
  induction rs as [|r0 rs IH]; simpl; [reflexivity|].
  destruct (Nat.eqb_spec (run_id r0) (run_id r')) as [E|E]; simpl.
  - destruct (Nat.eqb_spec (run_id r') id); [congruence|].
    destruct (Nat.eqb_spec (run_id r0) id); [congruence|]. exact IH.
  - destruct (Nat.eqb (run_id r0) id); [reflexivity | exact IH].
Qed.

Lemma seq_before : forall l1 x l2 k n,
  l1 ++ x :: l2 = seq k n -> forall y, In y l1 -> y < x.
Proof.
  induction l1 as [|a l1 IH]; intros x l2 k n E y Hy; [contradiction|].
  destruct n as [|n]; [discriminate|]. simpl in E. inversion E as [[Ea Er]].
  destruct Hy as [<- | Hy].
  - assert (Hx : In x (seq (S k) n)) by (rewrite <- Er; apply in_or_app; right; now left).
    apply in_seq in Hx. lia.
  - eapply IH; eauto.
Qed.

Lemma in_transitions : forall l p,
  In p (transitions l) -> exists x, In x l /\ fst p = step_id x.
Proof.
  induction l as [|x l IH]; intros p Hp; [contradiction|].
  unfold transitions in Hp; simpl in Hp. apply in_app_or in Hp as [Hp | Hp].
  - exists x. split; [now left|].
    unfold trans in Hp; destruct (status x); simpl in Hp;
      repeat destruct Hp as [<- | Hp]; try contradiction; reflexivity.
  - destruct (IH p Hp) as [y [Hy E]]. exists y. split; [now right | exact E].
Qed.

Lemma StronglySorted_app : forall {A} (R : A -> A -> Prop) l1 l2,
  StronglySorted R l1 -> StronglySorted R l2 ->
  (forall x y, In x l1 -> In y l2 -> R x y) -> StronglySorted R (l1 ++ l2).
Proof.
  intros A R l1; induction l1 as [|a l1 IH]; intros l2 H1 H2 H; simpl; [exact H2|].
  apply StronglySorted_inv in H1 as [H1 Ha]. constructor.
  - apply IH; auto. intros x y Hx Hy. apply H; [now right | exact Hy].
  - apply Forall_app. split; [exact Ha|]. apply Forall_forall.
    intros y Hy. apply H; [now left | exact Hy].
Qed.

Lemma StronglySorted_app_r : forall {A} (R : A -> A -> Prop) l1 l2,
  StronglySorted R (l1 ++ l2) -> StronglySorted R l2.
Proof.
  intros A R l1; induction l1 as [|a l1 IH]; intros l2 H; simpl in H; [exact H|].
  apply StronglySorted_inv in H as [H _]. now apply IH.
Qed.

Lemma transitions_sorted : forall l k,
  map step_id l = seq k (length l) -> StronglySorted le (map fst (transitions l)).
Proof.
  induction l as [|x l IH]; intros k E; simpl; [constructor|].
  simpl in E. injection E as Ex El.
  unfold transitions; simpl; fold (transitions l). rewrite map_app.
  apply StronglySorted_app.
  - unfold trans; destruct (status x); simpl; repeat constructor.
  - eapply IH; eauto.
  - intros a b Ha Hb.
    assert (a = k).
    { unfold trans in Ha; destruct (status x); simpl in Ha;
        repeat destruct Ha as [<- | Ha]; try contradiction; now rewrite Ex. }
    apply in_map_iff in Hb as [p [<- Hp]].
    apply in_transitions in Hp as [y [Hy Ey]]. rewrite Ey.
    assert (Hy' : In (step_id y) (seq (S k) (length l))) by (rewrite <- El; now apply in_map).
    apply in_seq in Hy'. lia.
Qed.

Lemma shape_error_tail : forall oks mid qs l1 e l2,
  oks ++ mid ++ qs = l1 ++ e :: l2 ->
  Forall (fun s => status s = SOk) oks -> Forall (fun s => status s = SQueued) qs ->
  mid_ok mid -> status e = SError -> l2 = qs.
Proof.
  induction oks as [|o oks IH]; intros mid qs l1 e l2 E Ho Hq Hm He; simpl in E.
  - destruct Hm as [-> | [m [-> _]]]; simpl in E.
    + exfalso. assert (In e qs) by (rewrite E; apply in_or_app; right; now left).
      rewrite Forall_forall in Hq. specialize (Hq e H). congruence.
    + destruct l1 as [|a l1]; simpl in E; injection E as E1 E2; [now subst|].
      exfalso. assert (In e qs) by (rewrite E2; apply in_or_app; right; now left).
      rewrite Forall_forall in Hq. specialize (Hq e H). congruence.
  - inversion Ho as [|? ? Hos Hoks]; subst.
    destruct l1 as [|a l1]; simpl in E; injection E as E1 E2; [subst; congruence|].
    eapply IH; eauto.
Qed.

Section ClaimFacts.

Context {World : Type}.
Context (invoke : World -> ToolCall -> World * ToolResult).

(** A failed run is never touched again. *)
Lemma failed_frozen_step : forall op (s : @Sys World) r,
  sys_inv s -> In r (runs s) -> rstatus r = RFailed ->
  find_run (run_id r) (runs (snd (step_sys invoke op s))) = Some r.
Proof.
  intros op s r Hs Hr Hf.
  assert (Hfind : find_run (run_id r) (runs s) = Some r)
    by (apply find_run_in; [apply Hs | exact Hr]).
  destruct op as [c | rid | | h]; simpl.
  - destruct (parse c); simpl; [now apply find_app_some | exact Hfind].
  - destruct (find_run rid (runs s)) as [r0|] eqn:Hf0; [|exact Hfind].
    destruct (run_step invoke (world s) r0) as [[[w' r'] es]|] eqn:Hrs; [|exact Hfind].
    simpl. rewrite publish_all_spec. simpl.
    apply find_some in Hf0 as [Hr0 E0]. apply Nat.eqb_eq in E0.
    destruct Hs as [S1 [S2 _]].
    destruct (S1 r0 Hr0) as [I0 _].
    destruct (run_step_spec invoke (world s) r0 w' r' es I0 Hrs) as [_ [Id' _]].
    destruct (Nat.eq_dec (run_id r) rid) as [E|E].
    + exfalso. subst rid.
      assert (r0 = r) by (eapply NoDup_map_inj; eauto). subst r0.
      unfold run_step in Hrs. rewrite Hf in Hrs. discriminate.
    + rewrite find_run_replace_other by congruence. exact Hfind.
  - exact Hfind.
  - exact Hfind.
Qed.

Lemma failed_frozen : forall ops (s : @Sys World) r,
  sys_inv s -> In r (runs s) -> rstatus r = RFailed ->
  find_run (run_id r) (runs (exec invoke ops s)) = Some r.
Proof.
  induction ops as [|op ops IH]; intros s r Hs Hr Hf; simpl.
  - apply find_run_in; [apply Hs | exact Hr].
  - apply IH; [now apply step_sys_inv | | exact Hf].
    apply (find_some _ _ (failed_frozen_step op s r Hs Hr Hf)).
Qed.

(** Every observer present after a step was already there with the same
    handle and subscription time, or got a handle not issued before. *)
Lemma observer_origin_step : forall op (s : @Sys World) o',
  In o' (observers (snd (step_sys invoke op s))) ->
  (exists o, In o (observers s) /\ obs_handle o = obs_handle o' /\ obs_since o = obs_since o')
  \/ next_handle s <= obs_handle o'.
Proof.
  intros op s o' Ho. destruct op as [c | rid | | h]; simpl in Ho.
  - destruct (parse c); simpl in Ho; left; exists o'; auto.
  - destruct (find_run rid (runs s)) as [r0|]; [|left; exists o'; auto].
    destruct (run_step invoke (world s) r0) as [[[w' r'] es]|]; [|left; exists o'; auto].
    rewrite publish_all_spec in Ho. simpl in Ho.
    apply in_map_iff in Ho as [o [<- Ho]]. left; exists o; auto.
  - apply in_app_or in Ho as [Ho | [<- | []]]; [left; exists o'; auto | right; simpl; lia].
  - apply filter_In in Ho as [Ho _]. left; exists o'; auto.
Qed.

Lemma next_handle_step : forall op (s : @Sys World),
  next_handle s <= next_handle (snd (step_sys invoke op s)).
Proof.
  intros [c | rid | | h] s; simpl.
  - destruct (parse c); simpl; lia.
  - destruct (find_run rid (runs s)) as [r0|]; [|simpl; lia].
    destruct (run_step invoke (world s) r0) as [[[w' r'] es]|]; [|simpl; lia].
    simpl; rewrite publish_all_spec; simpl; lia.
  - lia.
  - lia.
Qed.

Lemma observer_origin : forall ops (s : @Sys World) o',
  In o' (observers (exec invoke ops s)) ->
  (exists o, In o (observers s) /\ obs_handle o = obs_handle o' /\ obs_since o = obs_since o')
  \/ next_handle s <= obs_handle o'.
Proof.
  induction ops as [|op ops IH]; intros s o' Ho'; simpl in Ho'.
  - left; exists o'; auto.
  - destruct (IH _ _ Ho') as [[o1 [Ho1 [E1 E2]]] | Le].
    + destruct (observer_origin_step op s o1 Ho1) as [[o [Ho [E3 E4]]] | Le].
      * left; exists o; split; [exact Ho | split; congruence].
      * right; lia.
    + right. pose proof (next_handle_step op s). lia.
Qed.

(** How one step changes the run table: every run stays, with each step
    moving along [status_next]; a new run appears only from a submission,
    with all of its steps queued. *)
Lemma runs_step : forall op (s : @Sys World),
  sys_inv s ->
  (forall r, In r (runs s) -> exists r', In r' (runs (snd (step_sys invoke op s)))
     /\ run_id r' = run_id r /\ Forall2 step_next (steps r) (steps r'))
  /\ (forall r', In r' (runs (snd (step_sys invoke op s))) ->
       (exists r, In r (runs s) /\ run_id r = run_id r' /\ Forall2 step_next (steps r) (steps r'))
       \/ (~ In (run_id r') (map run_id (runs s))
           /\ Forall (fun x => status x = SQueued) (steps r')
           /\ map step_id (steps r') = seq 1 (length (plan r')))).
Proof.
  intros op s Hs.
  assert (Keep : forall r, In r (runs s) -> exists r', In r' (runs s)
            /\ run_id r' = run_id r /\ Forall2 step_next (steps r) (steps r'))
    by (intros r Hr; exists r; auto using step_next_refl_list).
  destruct op as [c | rid | | h]; simpl.
  - destruct (parse c) as [p|e]; simpl; [|split; [exact Keep | intros r' Hr'; left; exists r'; auto using step_next_refl_list]].
    split.
    + intros r Hr. exists r. split; [apply in_or_app; now left|].
      split; [reflexivity | apply step_next_refl_list].
    + intros r' Hr'. apply in_app_or in Hr' as [Hr' | [<- | []]].
      * left; exists r'; auto using step_next_refl_list.
      * right. simpl. split; [|split; [apply enumerate_queued | apply enumerate_ids]].
        intros Hin. apply in_map_iff in Hin as [r [E Hr]].
        destruct Hs as [S1 _]. destruct (S1 r Hr) as [_ [Lt _]]. simpl in E. lia.
  - destruct (find_run rid (runs s)) as [r0|] eqn:Hf0;
      [|split; [exact Keep | intros r' Hr'; left; exists r'; auto using step_next_refl_list]].
    destruct (run_step invoke (world s) r0) as [[[w' r1] es]|] eqn:Hrs;
      [|split; [exact Keep | intros r' Hr'; left; exists r'; auto using step_next_refl_list]].
    simpl. rewrite publish_all_spec. simpl.
    apply find_some in Hf0 as [Hr0 E0]. apply Nat.eqb_eq in E0.
    destruct Hs as [S1 [S2 _]].
    destruct (S1 r0 Hr0) as [I0 _].
    destruct (run_step_spec invoke (world s) r0 w' r1 es I0 Hrs) as [_ [Id1 [_ [Fw _]]]].
    split.
    + intros r Hr. destruct (Nat.eq_dec (run_id r) (run_id r0)) as [E|E].
      * assert (r = r0) by (eapply NoDup_map_inj; eauto). subst r.
        exists r1. split; [|split; [exact Id1 | exact Fw]].
        unfold replace_run. apply in_map_iff. exists r0.
        rewrite Id1, Nat.eqb_refl. auto.
      * exists r. split; [|split; [reflexivity | apply step_next_refl_list]].
        unfold replace_run. apply in_map_iff. exists r.
        destruct (Nat.eqb_spec (run_id r) (run_id r1)); [congruence | auto].
    + intros r' Hr'. apply in_replace_run in Hr' as [-> | [Hr' _]].
      * left. exists r0. auto.
      * left. exists r'. auto using step_next_refl_list.
  - split; [exact Keep | intros r' Hr'; left; exists r'; auto using step_next_refl_list].
  - split; [exact Keep | intros r' Hr'; left; exists r'; auto using step_next_refl_list].
Qed.

End ClaimFacts.



Lemma all_some_none : forall {A B} (f : A -> option B) l,
  Exists (fun x => f x = None) l -> all_some f l = None.
Proof.
  intros A B f l H; induction H as [x l Hx | x l _ IH]; simpl.
  - now rewrite Hx.
  - rewrite IH. now destruct (f x).
Qed.

Lemma submitted_plan_parse : forall {World} (invoke : World -> ToolCall -> World * ToolResult)
  (s : @Sys World) c,
  sys_inv s ->
  submitted_plan invoke s c = match parse c with inl p => Some p | inr _ => None end
  /\ rejection invoke s c = match parse c with inl _ => None | inr e => Some e end.
Proof.
  intros World invoke s c [S1 _]. unfold submitted_plan, rejection; simpl.
  destruct (parse c) as [p|e]; simpl; [|auto].
  split; [|reflexivity].
  unfold find_run. rewrite find_app_none.
  - simpl. now rewrite Nat.eqb_refl.
  - apply Forall_forall. intros r Hr. destruct (S1 r Hr) as [_ [Lt _]].
    apply Nat.eqb_neq. lia.
Qed.

(* ------------------------------------------------------------------ *)
(** ** Claims about the agent core *)

(* ------------------------------------------------------------------ *)
(** ** Facts about the helper and the CommandBar *)

Section WaitFacts.

Variable env : Env.
Variable el : string.
Variable timeout : Z.

Hypothesis no_button : forall i, probe_button env i <> Some true.
Hypothesis no_element : forall i, probe_button env i = None -> probe_element env i <> Some true.

Lemma wait_loop_timeout : forall fuel i,
  (exists j, (i <= j < i + fuel)%nat /\ (timeout < clock_at env j - start_time env)%Z) ->
  wait_loop env el timeout i fuel
  = Some (ScriptError ("Timeout waiting for element: " ++ el)%string).
Proof.
  induction fuel as [|fuel IH]; intros i [j [Hj Ht]]; [lia|].
  assert (Hcheck :
    (if Z.ltb timeout (clock_at env i - start_time env)
     then Some (ScriptError ("Timeout waiting for element: " ++ el)%string)
     else wait_loop env el timeout (S i) fuel)
    = Some (ScriptError ("Timeout waiting for element: " ++ el)%string)).
  { destruct (Z.ltb timeout (clock_at env i - start_time env)) eqn:L; [reflexivity|].
    apply Z.ltb_ge in L.
    apply IH. exists j. split; [|exact Ht].
    destruct (Nat.eq_dec i j) as [->|]; [lia|lia]. }
  cbn [wait_loop].
  destruct (probe_button env i) as [[|]|] eqn:B.
  - exfalso; exact (no_button i B).
  - exact Hcheck.
  - destruct (probe_element env i) as [[|]|] eqn:E.
    + exfalso; exact (no_element i B E).
    + exact Hcheck.
    + exact Hcheck.
Qed.

Hypothesis clock_start : (start_time env <= clock_at env 0)%Z.
Hypothesis clock_advance : forall i, (clock_at env i + 1 <= clock_at env (S (S i)))%Z.

Lemma clock_lower_bound : forall k,
  (start_time env + Z.of_nat k <= clock_at env (2 * k))%Z.
Proof.
  induction k as [|k IH]; [simpl; lia|].
  replace (2 * S k)%nat with (S (S (2 * k))) by lia.
  specialize (clock_advance (2 * k)). lia.
Qed.

Lemma wait_loop_expires : forall fuel,
  (2 * Z.to_nat timeout + 3 <= fuel)%nat ->
  wait_loop env el timeout 0 fuel
  = Some (ScriptError ("Timeout waiting for element: " ++ el)%string).
Proof.
  intros fuel Hf. apply wait_loop_timeout.
  exists (2 * (Z.to_nat timeout + 1))%nat. split; [lia|].
  pose proof (clock_lower_bound (Z.to_nat timeout + 1)) as H.
  destruct (Z.le_gt_cases 0 timeout) as [Hp|Hn].
  - rewrite Nat2Z.inj_add, Z2Nat.id in H by exact Hp. lia.
  - assert (E : Z.to_nat timeout = 0%nat) by lia.
    rewrite E in H |- *. simpl in H |- *. lia.
Qed.

End WaitFacts.

Lemma on_step_events_fold : forall evs st,
  events (fold_left on_step_event evs st) = events st ++ evs.
Proof.
  induction evs as [|e evs IH]; intros st; simpl.
  - now rewrite app_nil_r.
  - rewrite IH. simpl. now rewrite <- app_assoc.
Qed.

(** C1 (planner determinism): for every command string, submitting it in
    any two states of the system -- different histories of runs, events
    and observers, different worlds, even different tool implementations
    -- stores the same Plan (same ordered tool calls with the same
    parameters), namely [parse] of the string, or rejects it with the same
    error: the plan depends on the command string only. *)
Theorem planner_determinism :
  forall (W1 W2 : Type) (invoke1 : W1 -> ToolCall -> W1 * ToolResult)
         (invoke2 : W2 -> ToolCall -> W2 * ToolResult) (w1 : W1) (w2 : W2) ops1 ops2 c,
  let s1 := exec invoke1 ops1 (init w1) in
  let s2 := exec invoke2 ops2 (init w2) in
  submitted_plan invoke1 s1 c = submitted_plan invoke2 s2 c
  /\ rejection invoke1 s1 c = rejection invoke2 s2 c
  /\ submitted_plan invoke1 s1 c = match parse c with inl p => Some p | inr _ => None end.
Proof.
  intros W1 W2 invoke1 invoke2 w1 w2 ops1 ops2 c s1 s2.
  destruct (submitted_plan_parse invoke1 s1 c (reachable_inv invoke1 w1 ops1)) as [P1 R1].
  destruct (submitted_plan_parse invoke2 s2 c (reachable_inv invoke2 w2 ops2)) as [P2 R2].
  rewrite P1, P2, R1, R2. auto.
Qed.

(** C2 (fail-fast run closure): in every reachable state, for every run:
    once terminal, it is completed iff all its steps are ok; it is failed
    iff some step is an error; and if step [e] ended in error, every later
    step is queued, and whatever happens afterwards the run stays exactly
    as it is (so the later steps stay queued forever) and no event of the
    run is ever published for a step after [e]. *)
Theorem fail_fast_closure :
  forall (World : Type) (invoke : World -> ToolCall -> World * ToolResult) (w0 : World) ops r,
  let s := exec invoke ops (init w0) in
  In r (runs s) ->
  ((rstatus r = RCompleted \/ rstatus r = RFailed) ->
     (rstatus r = RCompleted <-> Forall (fun x => status x = SOk) (steps r)))
  /\ (rstatus r = RFailed <-> Exists (fun x => status x = SError) (steps r))
  /\ (forall l1 e l2, steps r = l1 ++ e :: l2 -> status e = SError ->
        Forall (fun x => status x = SQueued) l2
        /\ forall ops', let s' := exec invoke ops' s in
             find_run (run_id r) (runs s') = Some r
             /\ forall ev, In ev (log s') -> ev_run_id ev = run_id r ->
                  ev_step_id ev <= step_id e).
Proof.
  intros World invoke w0 ops r s Hr.
  pose proof (reachable_inv invoke w0 ops) as Hs. fold s in Hs.
  destruct Hs as [S1 S2345].
  destruct (S1 r Hr) as [[Hids [Hcalls [oks [mid [qs [Heq [Hoks [Hqs [Hmid [Hfail Hcomp]]]]]]]]]] _].
  assert (Hfail_ex : rstatus r = RFailed <-> Exists (fun x => status x = SError) (steps r)).
  { split.
    - intros Hf. apply Hfail in Hf as [m [-> Hm]]. rewrite Heq.
      apply Exists_exists. exists m. split; [apply in_or_app; right; now left | exact Hm].
    - intros Hex. apply Exists_exists in Hex as [x [Hx Hxs]]. rewrite Heq in Hx.
      apply in_app_or in Hx as [Hx | Hx]; [|apply in_app_or in Hx as [Hx | Hx]].
      + rewrite Forall_forall in Hoks. specialize (Hoks x Hx). congruence.
      + apply Hfail. destruct Hmid as [-> | [m [-> _]]]; [contradiction|].
        destruct Hx as [<- | []]. eexists; split; [reflexivity | exact Hxs].
      + rewrite Forall_forall in Hqs. specialize (Hqs x Hx). congruence. }
  split; [|split; [exact Hfail_ex|]].
  - intros Hterm. split.
    + intros Hc. destruct (Hcomp Hc) as [-> ->]. rewrite Heq. simpl. now rewrite app_nil_r.
    + intros Hall. destruct Hterm as [Hc | Hf]; [exact Hc|].
      exfalso. apply Hfail_ex in Hf. apply Exists_exists in Hf as [x [Hx Hxs]].
      rewrite Forall_forall in Hall. specialize (Hall x Hx). congruence.
  - intros l1 e l2 E He.
    assert (Hl2 : l2 = qs) by (eapply shape_error_tail; [rewrite <- Heq; exact E | eauto ..]).
    subst l2. split; [exact Hqs|].
    assert (Hf : rstatus r = RFailed)
      by (apply Hfail_ex, Exists_exists; exists e; split; [rewrite E; apply in_or_app; right; now left | exact He]).
    intros ops' s'.
    assert (Hs : sys_inv s) by apply reachable_inv.
    pose proof (failed_frozen invoke ops' s r Hs Hr Hf) as Hfz. fold s' in Hfz.
    split; [exact Hfz|].
    intros ev Hev Hid.
    pose proof (exec_inv invoke ops' s Hs) as [S1' _]. fold s' in S1'.
    apply find_some in Hfz as [Hr' _].
    destruct (S1' r Hr') as [_ [_ Ftr]].
    assert (Hin : In (ev_proj ev) (transitions (steps r))).
    { rewrite <- Ftr. apply in_map. apply filter_In. split; [exact Hev|].
      unfold ev_of. now apply Nat.eqb_eq. }
    rewrite E, transitions_app in Hin.
    change (transitions (e :: qs)) with (trans e ++ transitions qs) in Hin.
    rewrite (transitions_queued qs Hqs), app_nil_r in Hin.
    apply in_app_or in Hin as [Hin | Hin].
    + apply in_transitions in Hin as [x [Hx Ex]]. simpl in Ex.
      assert (step_id x < step_id e).
      { rewrite E, map_app in Hids. simpl in Hids.
        eapply seq_before; [exact Hids | now apply in_map]. }
      lia.
    + unfold trans in Hin. rewrite He in Hin. simpl in Hin.
      destruct Hin as [Hin | [Hin | []]]; unfold ev_proj in Hin; injection Hin as Hin _; lia.
Qed.

(** C3 (per-run event ordering): in every reachable state, for every
    observer and every run id, the events of that run delivered to the
    observer have non-decreasing step ids (so all events of step N come
    before those of step N+1), and their (step_id, status) sequence is a
    suffix of the run's transition history: the order in which its steps
    went queued -> running -> ok/error. *)
Theorem per_run_event_order :
  forall (World : Type) (invoke : World -> ToolCall -> World * ToolResult) (w0 : World) ops o rid,
  let s := exec invoke ops (init w0) in
  In o (observers s) ->
  let evs := filter (ev_of rid) (inbox o) in
  Sorted le (map ev_step_id evs)
  /\ (evs = [] \/ exists r, In r (runs s) /\ run_id r = rid
                 /\ exists pre, pre ++ map ev_proj evs = transitions (steps r)).
Proof.
  intros World invoke w0 ops o rid s Ho evs.
  pose proof (reachable_inv invoke w0 ops) as Hs. fold s in Hs.
  destruct Hs as [S1 [_ [S3 [S4 _]]]].
  destruct (S4 o Ho) as [_ [_ [[pre Hlog] _]]].
  destruct evs as [|e0 evs'] eqn:Hevs.
  - split; [constructor | now left].
  - assert (He0 : In e0 (log s)).
    { rewrite Hlog. apply in_or_app; right.
      assert (In e0 (filter (ev_of rid) (inbox o))) by (unfold evs in Hevs; rewrite Hevs; now left).
      apply filter_In in H as [H _]. exact H. }
    assert (Hid0 : ev_run_id e0 = rid).
    { assert (In e0 (filter (ev_of rid) (inbox o))) by (unfold evs in Hevs; rewrite Hevs; now left).
      apply filter_In in H as [_ H]. unfold ev_of in H. now apply Nat.eqb_eq. }
    destruct (S3 e0 He0) as [_ [r [Hr Er]]].
    destruct (S1 r Hr) as [[Hids [Hcalls _]] [_ Ftr]].
    rewrite Hlog, filter_app, map_app, Er, Hid0 in Ftr.
    unfold evs in Hevs. rewrite Hevs in Ftr.
    split.
    + apply StronglySorted_Sorted.
      assert (Hss : StronglySorted le (map fst (transitions (steps r))))
        by (eapply transitions_sorted; exact Hids).
      rewrite <- Ftr, map_app in Hss. apply StronglySorted_app_r in Hss.
      rewrite map_map in Hss. exact Hss.
    + right. exists r. split; [exact Hr|]. split; [congruence|].
      eexists. exact Ftr.
Qed.

(** C4 (no replay): if an observer subscribes in a reachable state [s]
    (receiving handle [h]), then after any further operations, the
    observer holding [h] never has in its queue any event published before
    it subscribed (any event of [log s]). *)
Theorem no_replay :
  forall (World : Type) (invoke : World -> ToolCall -> World * ToolResult) (w0 : World)
         ops1 ops2 h o e,
  let s := exec invoke ops1 (init w0) in
  let s1 := snd (step_sys invoke Subscribe s) in
  let s2 := exec invoke ops2 s1 in
  fst (step_sys invoke Subscribe s) = Subscribed h ->
  In o (observers s2) -> obs_handle o = h ->
  In e (log s) -> ~ In e (inbox o).
Proof.
  intros World invoke w0 ops1 ops2 h o e s s1 s2 Hh Ho Eh He Hin.
  simpl in Hh. injection Hh as Hh. subst h.
  assert (Hs : sys_inv s) by apply reachable_inv.
  assert (Hs1 : sys_inv s1) by (apply step_sys_inv; exact Hs).
  assert (Hs2 : sys_inv s2) by (apply exec_inv; exact Hs1).
  assert (Hsince : obs_since o = clock s).
  { destruct (observer_origin invoke ops2 s1 o Ho) as [[o1 [Ho1 [E1 E2]]] | Le].
    - simpl in Ho1. apply in_app_or in Ho1 as [Ho1 | [<- | []]].
      + exfalso. destruct Hs as [_ [_ [_ [S4 _]]]].
        destruct (S4 o1 Ho1) as [_ [Lt _]]. lia.
      + simpl in E2. congruence.
    - simpl in Le. lia. }
  destruct Hs as [_ [_ [S3 _]]]. destruct (S3 e He) as [Te _].
  destruct Hs2 as [_ [_ [_ [S4 _]]]]. destruct (S4 o Ho) as [_ [_ [_ D]]].
  specialize (D e Hin). lia.
Qed.

(** C5 (all-or-nothing parsing): if some clause of the command matches no
    pattern rule, [parse] fails with [UnparseableCommand] (no partial plan)
    and the submission is answered synchronously with that error while
    the system state is left exactly as it was: no run is created, no run
    id is consumed, and no event is published. *)
Theorem all_or_nothing_parse :
  forall (World : Type) (invoke : World -> ToolCall -> World * ToolResult) (s : @Sys World) c,
  Exists (fun cl => match_clause cl = None) (clauses c) ->
  parse c = inr UnparseableCommand
  /\ step_sys invoke (Submit c) s = (Rejected UnparseableCommand, s).
Proof.
  intros World invoke s c Hex.
  assert (Hp : parse c = inr UnparseableCommand)
    by (unfold parse; now rewrite all_some_none).
  split; [exact Hp|]. simpl. now rewrite Hp.
Qed.

(** C6 (step lifecycle): in every reachable state every run's step ids are
    1..n; across any operation every existing run stays, each of its steps
    keeping its id and tool call and changing status only by
    queued -> running, running -> ok or running -> error (so no state is
    skipped and ok/error are final); and a run that appears is a new one
    whose steps are all queued with ids 1..n. *)
Theorem step_lifecycle :
  forall (World : Type) (invoke : World -> ToolCall -> World * ToolResult) (w0 : World) ops op,
  let s := exec invoke ops (init w0) in
  let s' := snd (step_sys invoke op s) in
  (forall r, In r (runs s) -> map step_id (steps r) = seq 1 (length (plan r)))
  /\ (forall r, In r (runs s) -> exists r', In r' (runs s')
        /\ run_id r' = run_id r /\ Forall2 step_next (steps r) (steps r'))
  /\ (forall r', In r' (runs s') ->
       (exists r, In r (runs s) /\ run_id r = run_id r' /\ Forall2 step_next (steps r) (steps r'))
       \/ (~ In (run_id r') (map run_id (runs s))
           /\ Forall (fun x => status x = SQueued) (steps r')
           /\ map step_id (steps r') = seq 1 (length (plan r')))).
Proof.
  intros World invoke w0 ops op s s'.
  pose proof (reachable_inv invoke w0 ops) as Hs. fold s in Hs.
  split.
  - intros r Hr. destruct Hs as [S1 _]. destruct (S1 r Hr) as [[Hids [Hcalls _]] _].
    rewrite <- Hcalls, length_map. exact Hids.
  - exact (runs_step invoke op s Hs).
Qed.

(** C7 (open-app failure contract): for every app name and launch result,
    [openApp] throws [AppNotFound ("Could not open " ++ name)] exactly when
    [launchApplication] fails, and then the helper prints
    [Error: appNotFound("Could not open <name>")] (Swift's quoting of the
    payload) on stderr and exits with status 2; on a successful launch it
    prints nothing and exits 0. Both the helper of [src/helper] and the
    extended helper of [PHASE1_COMPLETE.md] behave so. *)
Theorem open_app_failure_contract :
  forall (env : Env) (name : string) (rest : list string) (fuel : nat),
    let expected :=
      if launch_application env name
      then mkOutcome 0 [] []
      else mkOutcome 2 []
             ["Error: " ++ describe (AppNotFound ("Could not open " ++ name))]%string in
    openApp env name no_output
      = (no_output, if launch_application env name then inl tt
                    else inr (AppNotFound ("Could not open " ++ name)%string))
    /\ helper_main env ("open-app" :: name :: rest) = expected
    /\ helper_main_ext env fuel ("open-app" :: name :: rest) = Some expected.
Proof.
  intros env name rest fuel expected. subst expected.
  unfold helper_main_ext, helper_main, command_v2, command_v1, run_body, openApp.
  cbn [String.eqb Ascii.eqb Bool.eqb andb].
  destruct (launch_application env name); repeat split; reflexivity.
Qed.

(** C8 (wait-for-element owns its timeout): the timeout of
    [wait-for-element] is [10] when the argument is absent or not a Swift
    [Int]; and when the element never appears (neither [exists button]
    nor, after an error of that test, [exists UI element] holds) and
    [current date] starts at or after [startTime] and advances by at least
    one second over the two [delay 0.5] of every two iterations, the
    polling script raises [Timeout waiting for element: <el>] within
    [2 * timeout + 3] iterations, and the extended helper reports that
    error on stderr and exits with status 2. The helper of [src/helper]
    has no [wait-for-element] command: it prints the usage and exits 1. *)
Theorem wait_for_element_timeout :
  forall (env : Env) (app el : string) (extra : list string) (fuel : nat),
    (forall i, probe_button env i <> Some true) ->
    (forall i, probe_button env i = None -> probe_element env i <> Some true) ->
    (start_time env <= clock_at env 0)%Z ->
    (forall i, (clock_at env i + 1 <= clock_at env (S (S i)))%Z) ->
    (2 * Z.to_nat (wait_timeout extra) + 3 <= fuel)%nat ->
    (wait_timeout [] = 10%Z
     /\ (forall t r, swift_int t = None -> wait_timeout (t :: r) = 10%Z))
    /\ wait_loop env el (wait_timeout extra) 0 fuel
       = Some (ScriptError ("Timeout waiting for element: " ++ el)%string)
    /\ helper_main_ext env fuel ("wait-for-element" :: app :: el :: extra)
       = Some (mkOutcome 2 []
                 ((if ax_trusted env then [] else [ax_warning])
                  ++ ["Error: " ++ describe (NSErr "applescript" 1
                                  ("Timeout waiting for element: " ++ el))]%string))
    /\ helper_main env ("wait-for-element" :: app :: el :: extra)
       = usage_exit usage_lines_v1.
Proof.
  intros env app el extra fuel Hb He Hs Ha Hf.
  pose proof (wait_loop_expires env el (wait_timeout extra) Hb He Hs Ha fuel Hf) as Hw.
  split; [split; [reflexivity|]|split; [exact Hw|split]].
  - intros t r Ht. simpl. now rewrite Ht.
  - unfold helper_main_ext, command_v2, command_v1.
    cbn [String.eqb Ascii.eqb Bool.eqb andb].
    unfold waitForElement, run_wait_script. rewrite Hw.
    unfold run_body, bind, ensureAccessibilityPermission.
    destruct (ax_trusted env); reflexivity.
  - reflexivity.
Qed.

(** C9 (CommandBar auto-open): after receiving any sequence of step
    events, the CommandBar has appended every event to its list, and its
    steps panel is open exactly when it was open before or one of the
    events has status ["queued"] and [step_id] 1; a single event opens a
    closed panel if and only if it is such an event. *)
Theorem commandbar_auto_open :
  forall (evs : list UiStepEvent) (st : CommandBarState),
    events (fold_left on_step_event evs st) = events st ++ evs
    /\ isStepsOpen (fold_left on_step_event evs st)
       = isStepsOpen st
         || existsb (fun e => String.eqb (ui_status e) "queued" && Z.eqb (ui_step_id e) 1) evs
    /\ (forall e, isStepsOpen st = false ->
          (isStepsOpen (on_step_event st e) = true
           <-> ui_status e = "queued" /\ ui_step_id e = 1%Z)).
Proof.
  intros evs st. split; [apply on_step_events_fold|split].
  - revert st. induction evs as [|e evs IH]; intros st; simpl.
    + now rewrite orb_false_r.
    + rewrite IH. simpl.
      destruct (String.eqb (ui_status e) "queued" && Z.eqb (ui_step_id e) 1);
        simpl; [now rewrite orb_true_r|reflexivity].
  - intros e Hc. simpl. rewrite Hc.
    destruct (String.eqb (ui_status e) "queued") eqn:S1;
      destruct (Z.eqb (ui_step_id e) 1) eqn:S2; simpl;
      rewrite ?String.eqb_eq, ?String.eqb_neq, ?Z.eqb_eq, ?Z.eqb_neq in *;
      split; intros H; try discriminate; try tauto; now destruct H.
Qed.

(** C10 (check-ax always succeeds): for every accessibility state,
    [check-ax] (with any further arguments) exits with status 0 and prints
    nothing on stdout; a missing permission only adds the warning line on
    stderr. Both the helper of [src/helper] and the extended helper behave
    so. *)
Theorem check_ax_exit_zero :
  forall (env : Env) (rest : list string) (fuel : nat),
    helper_main env ("check-ax" :: rest)
      = mkOutcome 0 [] (if ax_trusted env then [] else [ax_warning])
    /\ helper_main_ext env fuel ("check-ax" :: rest)
      = Some (mkOutcome 0 [] (if ax_trusted env then [] else [ax_warning])).
Proof.
  intros env rest fuel.
  unfold helper_main_ext, helper_main, command_v2, command_v1, run_body,
    ensureAccessibilityPermission.
  cbn [String.eqb Ascii.eqb Bool.eqb andb].
  destruct (ax_trusted env); split; reflexivity.
Qed.

(** Witness of C2: the failed run of [demo_state]. *)
Lemma fail_fast_closure_witness :
  let s := demo_state in
  let r := hd no_run (runs s) in
  In r (runs s)
  /\ (((rstatus r = RCompleted \/ rstatus r = RFailed) ->
       (rstatus r = RCompleted <-> Forall (fun x => status x = SOk) (steps r)))
      /\ (rstatus r = RFailed <-> Exists (fun x => status x = SError) (steps r))
      /\ (forall l1 e l2, steps r = l1 ++ e :: l2 -> status e = SError ->
            Forall (fun x => status x = SQueued) l2
            /\ forall ops', let s' := exec demo_invoke ops' s in
                 find_run (run_id r) (runs s') = Some r
                 /\ forall ev, In ev (log s') -> ev_run_id ev = run_id r ->
                      ev_step_id ev <= step_id e)).
Proof.
  intros s r.
  assert (H : In r (runs s)) by (vm_compute; left; reflexivity).
  split; [exact H|].
  exact (fail_fast_closure unit demo_invoke tt demo_ops r H).
Defined.

(** Witness of C3: the first observer of [demo_state] and run 1. *)
Lemma per_run_event_order_witness :
  let s := demo_state in
  let o := hd no_observer (observers s) in
  let evs := filter (ev_of 1) (inbox o) in
  In o (observers s)
  /\ Sorted le (map ev_step_id evs)
  /\ (evs = [] \/ exists r, In r (runs s) /\ run_id r = 1
                 /\ exists pre, pre ++ map ev_proj evs = transitions (steps r)).
Proof.
  intros s o evs.
  assert (H : In o (observers s)) by (vm_compute; left; reflexivity).
  split; [exact H|].
  exact (per_run_event_order unit demo_invoke tt demo_ops o 1 H).
Defined.

(** Witness of C4: a second subscription after [demo_ops], followed by
    another step of the run. *)
Lemma no_replay_witness :
  let s := demo_state in
  let s1 := snd (step_sys demo_invoke Subscribe s) in
  let s2 := exec demo_invoke [Advance 1] s1 in
  let o := hd no_observer (rev (observers s2)) in
  let e := hd no_event (log s) in
  fst (step_sys demo_invoke Subscribe s) = Subscribed 2
  /\ In o (observers s2) /\ obs_handle o = 2 /\ In e (log s)
  /\ ~ In e (inbox o).
Proof.
  intros s s1 s2 o e.
  assert (H1 : fst (step_sys demo_invoke Subscribe s) = Subscribed 2) by (vm_compute; reflexivity).
  assert (H2 : In o (observers s2)) by (vm_compute; right; left; reflexivity).
  assert (H3 : obs_handle o = 2) by (vm_compute; reflexivity).
  assert (H4 : In e (log s)) by (vm_compute; left; reflexivity).
  split; [exact H1|split; [exact H2|split; [exact H3|split; [exact H4|]]]].
  exact (no_replay unit demo_invoke tt demo_ops [Advance 1] 2 o e H1 H2 H3 H4).
Defined.

(** Witness of C5: a command whose only clause matches no rule. *)
Lemma all_or_nothing_parse_witness :
  Exists (fun cl => match_clause cl = None) (clauses "frobnicate the whatsit")
  /\ parse "frobnicate the whatsit" = inr UnparseableCommand
  /\ step_sys demo_invoke (Submit "frobnicate the whatsit") demo_state
     = (Rejected UnparseableCommand, demo_state).
Proof.
  assert (H : Exists (fun cl => match_clause cl = None) (clauses "frobnicate the whatsit"))
    by (vm_compute; constructor; vm_compute; reflexivity).
  split; [exact H|].
  exact (all_or_nothing_parse unit demo_invoke demo_state "frobnicate the whatsit" H).
Defined.

(** Witness of C8: [demo_env], the default timeout and 23 iterations. *)
Lemma wait_for_element_timeout_witness :
  helper_main_ext demo_env 23 ["wait-for-element"; "Calculator"; "Equals"]
  = Some (mkOutcome 2 []
            ["Error: " ++ describe (NSErr "applescript" 1
                            "Timeout waiting for element: Equals")]%string).
Proof.
  refine (proj1 (proj2 (proj2
    (wait_for_element_timeout demo_env "Calculator" "Equals" [] 23 _ _ _ _ _)))).
  - intros i; simpl; discriminate.
  - intros i H; simpl in H; discriminate.
  - simpl; lia.
  - intros i; simpl; lia.
  - vm_compute; lia.
Defined.

(* ------------------------------------------------------------------ *)
(** ** Further facts about the helper *)

Ltac body_cases :=
  unfold body_ok, clickMenu, clickElement, getText, openApp, focusApp, runAppleScript,
    ensureAccessibilityPermission, bind, ret, throw, emit, emit_err, print, eprint, no_output;
  cbn;
  repeat (match goal with
          | |- context [ax_trusted ?e] => destruct (ax_trusted e)
          | |- context [launch_application ?e ?n] => destruct (launch_application e n)
          | |- context [apple_script ?e ?s] => destruct (apple_script e s)
          | |- context [String.eqb ?a ?b] => destruct (String.eqb a b)
          end; cbn);
  first [ left; do 2 eexists; split; [reflexivity | auto]
        | right; do 2 eexists; split; [reflexivity | auto] ].

Lemma command_v1_ok : forall env cmd rest body,
  command_v1 env cmd rest = Some body -> body_ok body.
Proof.
  intros env cmd rest body H. unfold command_v1 in H.
  destruct (String.eqb cmd "open-app");
    [injection H as <-; destruct rest; body_cases|].
  destruct (String.eqb cmd "focus-app");
    [injection H as <-; destruct rest; body_cases|].
  destruct (String.eqb cmd "run-applescript"); [injection H as <-; body_cases|].
  destruct (String.eqb cmd "click-menu");
    [injection H as <-; destruct rest as [|a [|b [|c [|d rest]]]]; body_cases|].
  destruct (String.eqb cmd "check-ax"); [injection H as <-; body_cases|].
  discriminate.
Qed.

Lemma waitForElement_ok : forall env fuel app el t body,
  waitForElement env fuel app el t = Some body -> body_ok body.
Proof.
  intros env fuel app el t body H.
  unfold waitForElement, run_wait_script in H.
  destruct (wait_loop env el t 0 fuel) as [[|m|out]|]; try discriminate;
    injection H as <-; body_cases.
Qed.

Lemma command_v2_ok : forall env fuel cmd rest body,
  command_v2 env fuel cmd rest = Some (Some body) -> body_ok body.
Proof.
  intros env fuel cmd rest body H. unfold command_v2 in H.
  destruct (command_v1 env cmd rest) as [b|] eqn:E.
  - injection H as <-. exact (command_v1_ok env cmd rest b E).
  - destruct (String.eqb cmd "click-element");
      [injection H as <-; destruct rest as [|a [|b [|c rest]]]; body_cases|].
    destruct (String.eqb cmd "get-text");
      [injection H as <-; destruct rest as [|a [|b [|c rest]]]; body_cases|].
    destruct (String.eqb cmd "wait-for-element"); [|discriminate].
    destruct rest as [|a [|b rest]];
      [injection H as <-; body_cases | injection H as <-; body_cases |].
    injection H as H. exact (waitForElement_ok env fuel a b _ body H).
Qed.

Lemma run_body_shape : forall usage body,
  body_ok body -> outcome_shape usage (run_body body).
Proof.
  intros usage body [[outs [w [E Hw]]]|[w [e [E Hw]]]]; unfold run_body; rewrite E;
    unfold outcome_shape; simpl.
  - right; left; split; [reflexivity | exact Hw].
  - right; right; split; [reflexivity|split; [reflexivity|]].
    exists e. destruct Hw as [-> | ->]; [left|right]; reflexivity.
Qed.

(** X1: whatever its arguments and whatever the machine does, the helper
    ends in one of three ways: exit 1 with the usage text on stdout and
    nothing on stderr; exit 0 with at most the accessibility warning on
    stderr; or exit 2 with nothing on stdout and, on stderr, one
    [Error: ...] line, possibly after the accessibility warning. Both
    versions of the helper behave so (the extended one whenever it
    terminates). *)
Theorem helper_outcome_shape :
  forall (env : Env) (args : list string) (fuel : nat),
    outcome_shape usage_lines_v1 (helper_main env args)
    /\ (forall o, helper_main_ext env fuel args = Some o -> outcome_shape usage_lines_v2 o).
Proof.
  intros env args fuel. split.
  - unfold helper_main. destruct args as [|cmd rest].
    + left; repeat split.
    + destruct (command_v1 env cmd rest) as [b|] eqn:E.
      * exact (run_body_shape _ b (command_v1_ok env cmd rest b E)).
      * left; repeat split.
  - intros o H. unfold helper_main_ext in H. destruct args as [|cmd rest].
    + injection H as <-; left; repeat split.
    + destruct (command_v2 env fuel cmd rest) as [[b|]|] eqn:E; try discriminate;
        injection H as <-.
      * exact (run_body_shape _ b (command_v2_ok env fuel cmd rest b E)).
      * left; repeat split.
Qed.

Lemma command_v1_none : forall env cmd rest,
  command_v1 env cmd rest = None <-> ~ In cmd commands_v1.
Proof.
  intros env cmd rest. unfold command_v1, commands_v1.
  destruct (String.eqb_spec cmd "open-app"); [subst; simpl; split; [discriminate|tauto]|].
  destruct (String.eqb_spec cmd "focus-app"); [subst; simpl; split; [discriminate|tauto]|].
  destruct (String.eqb_spec cmd "run-applescript"); [subst; simpl; split; [discriminate|tauto]|].
  destruct (String.eqb_spec cmd "click-menu"); [subst; simpl; split; [discriminate|tauto]|].
  destruct (String.eqb_spec cmd "check-ax"); [subst; simpl; split; [discriminate|tauto]|].
  simpl. split; [|reflexivity]. intros _ H.
  repeat (destruct H as [H|H]; [congruence|]); exact H.
Qed.

Lemma command_v2_none : forall env fuel cmd rest,
  command_v2 env fuel cmd rest = None <-> ~ In cmd commands_v2.
Proof.
  intros env fuel cmd rest. unfold command_v2, commands_v2.
  rewrite in_app_iff.
  destruct (command_v1 env cmd rest) eqn:E.
  - split; [discriminate|]. intros H. exfalso. apply H. left.
    destruct (In_dec string_dec cmd commands_v1) as [I|I]; [exact I|].
    apply (command_v1_none env cmd rest) in I. congruence.
  - apply command_v1_none in E.
    destruct (String.eqb_spec cmd "click-element");
      [subst; simpl; split; [discriminate|tauto]|].
    destruct (String.eqb_spec cmd "get-text"); [subst; simpl; split; [discriminate|tauto]|].
    destruct (String.eqb_spec cmd "wait-for-element");
      [subst; simpl; split; [discriminate|tauto]|].
    simpl. split; [|reflexivity]. intros _ [H|H]; [exact (E H)|].
    repeat (destruct H as [H|H]; [congruence|]); exact H.
Qed.

Lemma run_body_exit : forall body, exit_code (run_body body) <> 1%Z.
Proof.
  intros body. unfold run_body. destruct (body no_output) as [o [u|e]]; simpl; lia.
Qed.

(** X2: with no arguments, or with a first argument that is not one of
    its commands, the helper prints its usage text on stdout, nothing on
    stderr, and exits 1; for a known command it never exits 1. Both
    versions behave so, each with its own command list and usage text. *)
Theorem helper_usage_routing :
  forall (env : Env) (cmd : string) (rest : list string) (fuel : nat),
    helper_main env [] = usage_exit usage_lines_v1
    /\ helper_main_ext env fuel [] = Some (usage_exit usage_lines_v2)
    /\ (~ In cmd commands_v1 -> helper_main env (cmd :: rest) = usage_exit usage_lines_v1)
    /\ (In cmd commands_v1 -> exit_code (helper_main env (cmd :: rest)) <> 1%Z)
    /\ (~ In cmd commands_v2 ->
          helper_main_ext env fuel (cmd :: rest) = Some (usage_exit usage_lines_v2))
    /\ (In cmd commands_v2 -> forall o,
          helper_main_ext env fuel (cmd :: rest) = Some o -> exit_code o <> 1%Z).
Proof.
  intros env cmd rest fuel.
  split; [reflexivity|split; [reflexivity|]].
  split; [|split; [|split]].
  - intros H. apply (command_v1_none env cmd rest) in H.
    unfold helper_main. now rewrite H.
  - intros H. unfold helper_main.
    destruct (command_v1 env cmd rest) eqn:E; [apply run_body_exit|].
    apply command_v1_none in E. contradiction.
  - intros H. apply (command_v2_none env fuel cmd rest) in H.
    unfold helper_main_ext. now rewrite H.
  - intros H o Ho. unfold helper_main_ext in Ho.
    destruct (command_v2 env fuel cmd rest) as [[b|]|] eqn:E; try discriminate.
    + injection Ho as <-. apply run_body_exit.
    + apply command_v2_none in E. contradiction.
Qed.


Lemma join_sep_space_empty : forall rest,
  join_sep " " rest = "" <-> rest = [] \/ rest = [""].
Proof.
  intros [|x [|y rest]]; simpl.
  - tauto.
  - split; [intros ->; right; reflexivity|intros [H|H]; congruence].
  - split; [|intros [H|H]; discriminate].
    intros H. destruct x; discriminate.
Qed.

(** X4: the argument checks: [open-app] and [focus-app] without a name,
    [run-applescript] whose arguments join to an empty script,
    [click-menu] without exactly three arguments, [click-element] and
    [get-text] without exactly two and [wait-for-element] with fewer than
    two end in the [usage] error and exit 2, the same on every machine:
    no application is launched and no script is run. *)
Theorem helper_argument_checks :
  forall (env : Env) (rest : list string) (fuel : nat),
    helper_main env ["open-app"] = usage_error "open-app requires app name"
    /\ helper_main env ["focus-app"] = usage_error "focus-app requires app name"
    /\ (join_sep " " rest = "" ->
          helper_main env ("run-applescript" :: rest)
          = usage_error "run-applescript requires a script string")
    /\ (length rest <> 3 ->
          helper_main env ("click-menu" :: rest)
          = usage_error "click-menu requires 3 args: app, menu, item")
    /\ (length rest <> 2 ->
          helper_main_ext env fuel ("click-element" :: rest)
          = Some (usage_error "click-element requires 2 args: app, element")
          /\ helper_main_ext env fuel ("get-text" :: rest)
          = Some (usage_error "get-text requires 2 args: app, element"))
    /\ (length rest < 2 ->
          helper_main_ext env fuel ("wait-for-element" :: rest)
          = Some (usage_error "wait-for-element requires at least 2 args: app, element [timeout]")).
Proof.
  intros env rest fuel.
  split; [reflexivity|split; [reflexivity|split; [|split; [|split]]]].
  - intros H. unfold helper_main, command_v1. cbn [String.eqb Ascii.eqb Bool.eqb andb].
    rewrite H. reflexivity.
  - intros H. unfold helper_main, command_v1. cbn [String.eqb Ascii.eqb Bool.eqb andb].
    destruct rest as [|a [|b [|c [|d rest]]]]; try reflexivity. simpl in H. lia.
  - intros H. unfold helper_main_ext, command_v2, command_v1.
    cbn [String.eqb Ascii.eqb Bool.eqb andb].
    destruct rest as [|a [|b [|c rest]]]; try (split; reflexivity). simpl in H. lia.
  - intros H. unfold helper_main_ext, command_v2, command_v1.
    cbn [String.eqb Ascii.eqb Bool.eqb andb].
    destruct rest as [|a [|b rest]]; try reflexivity. simpl in H. lia.
Qed.

(** X5: [run-applescript] joins its arguments with single spaces into one
    script, which is empty only for no argument or a single empty one
    (so two empty arguments run the script [" "]); a non-empty script is
    run, its result is printed on stdout only when non-empty and the
    helper exits 0, while an invalid or failing script gives exit 2 with
    the [NSError] on stderr. *)
Theorem run_applescript_behaviour :
  forall (env : Env) (rest : list string),
    (join_sep " " rest = "" <-> rest = [] \/ rest = [""])
    /\ (join_sep " " rest <> "" ->
          helper_main env ("run-applescript" :: rest)
          = script_outcome (apple_script env (join_sep " " rest))).
Proof.
  intros env rest. split; [apply join_sep_space_empty|].
  intros H. unfold helper_main, command_v1. cbn [String.eqb Ascii.eqb Bool.eqb andb].
  destruct (String.eqb_spec (join_sep " " rest) "") as [E|_]; [contradiction|].
  unfold run_body, runAppleScript, script_outcome, bind, ret, throw, emit, print, no_output.
  destruct (apple_script env (join_sep " " rest)) as [|m|out]; try reflexivity.
  destruct (String.eqb out ""); reflexivity.
Qed.

Lemma wait_loop_with_ax : forall env b el t fuel i,
  wait_loop (with_ax env b) el t i fuel = wait_loop env el t i fuel.
Proof.
  intros env b el t fuel; induction fuel as [|fuel IH]; intros i; [reflexivity|].
  simpl. rewrite IH. reflexivity.
Qed.

(** X6: the accessibility check never blocks a command: without the
    permission, [click-menu], [click-element], [get-text],
    [wait-for-element] and [check-ax] do exactly what they do with it,
    only with the warning as first stderr line; [open-app], [focus-app]
    and [run-applescript] do not consult it at all. *)
Theorem accessibility_never_blocks :
  forall (env : Env) (app x y : string) (extra rest : list string) (fuel : nat),
    helper_main (with_ax env false) ["click-menu"; app; x; y]
      = with_first_err ax_warning (helper_main (with_ax env true) ["click-menu"; app; x; y])
    /\ helper_main (with_ax env false) ("check-ax" :: rest)
      = with_first_err ax_warning (helper_main (with_ax env true) ("check-ax" :: rest))
    /\ helper_main_ext (with_ax env false) fuel ["click-element"; app; x]
      = option_map (with_first_err ax_warning)
          (helper_main_ext (with_ax env true) fuel ["click-element"; app; x])
    /\ helper_main_ext (with_ax env false) fuel ["get-text"; app; x]
      = option_map (with_first_err ax_warning)
          (helper_main_ext (with_ax env true) fuel ["get-text"; app; x])
    /\ helper_main_ext (with_ax env false) fuel ("wait-for-element" :: app :: x :: extra)
      = option_map (with_first_err ax_warning)
          (helper_main_ext (with_ax env true) fuel ("wait-for-element" :: app :: x :: extra))
    /\ (forall cmd, In cmd ["open-app"; "focus-app"; "run-applescript"] ->
          helper_main (with_ax env false) (cmd :: rest)
          = helper_main (with_ax env true) (cmd :: rest)).
Proof.
  intros env app x y extra rest fuel.
  split; [|split; [|split; [|split; [|split]]]].
  - unfold helper_main, command_v1. cbn [String.eqb Ascii.eqb Bool.eqb andb].
    unfold run_body, clickMenu, runAppleScript, ensureAccessibilityPermission,
      bind, ret, throw, emit_err, eprint, no_output. simpl.
    destruct (apple_script env (click_menu_script app x y)); reflexivity.
  - reflexivity.
  - unfold helper_main_ext, command_v2, command_v1. cbn [String.eqb Ascii.eqb Bool.eqb andb].
    unfold run_body, clickElement, runAppleScript, ensureAccessibilityPermission,
      bind, ret, throw, emit_err, eprint, no_output. simpl.
    destruct (apple_script env (click_element_script app x)); reflexivity.
  - unfold helper_main_ext, command_v2, command_v1. cbn [String.eqb Ascii.eqb Bool.eqb andb].
    unfold run_body, getText, runAppleScript, ensureAccessibilityPermission,
      bind, ret, throw, emit, emit_err, print, eprint, no_output. simpl.
    destruct (apple_script env (get_text_script app x)); reflexivity.
  - unfold helper_main_ext, command_v2, command_v1. cbn [String.eqb Ascii.eqb Bool.eqb andb].
    unfold waitForElement, run_wait_script. rewrite !wait_loop_with_ax.
    destruct (wait_loop env x (wait_timeout extra) 0 fuel) as [[|m|out]|]; reflexivity.
  - intros cmd Hc. simpl in Hc.
    destruct Hc as [<-|[<-|[<-|[]]]]; unfold helper_main, command_v1;
      cbn [String.eqb Ascii.eqb Bool.eqb andb].
    + destruct rest; reflexivity.
    + destruct rest as [|n rest]; [reflexivity|].
      unfold run_body, focusApp, runAppleScript, bind, ret, throw, no_output. simpl.
      destruct (apple_script env ("tell application " ++ quoted n ++ " to activate")%string);
        reflexivity.
    + destruct (String.eqb (join_sep " " rest) ""); [reflexivity|].
      unfold run_body, runAppleScript, bind, ret, throw, emit, print, no_output. simpl.
      destruct (apple_script env (join_sep " " rest)); reflexivity.
Qed.

Lemma wait_loop_found : forall env el t k fuel i msg,
  (forall j, i <= j < i + k ->
     probe_button env j <> Some true
     /\ (probe_button env j = None -> probe_element env j <> Some true)
     /\ (clock_at env j - start_time env <= t)%Z) ->
  ((probe_button env (i + k) = Some true /\ msg = ("Found button: " ++ el)%string)
   \/ (probe_button env (i + k) = None /\ probe_element env (i + k) = Some true
       /\ msg = ("Found element: " ++ el)%string)) ->
  k < fuel ->
  wait_loop env el t i fuel = Some (ScriptOutput msg).
Proof.
  intros env el t k; induction k as [|k IH]; intros fuel i msg Hbefore Hfound Hk;
    (destruct fuel as [|fuel]; [lia|]); cbn [wait_loop].
  - rewrite Nat.add_0_r in Hfound.
    destruct Hfound as [[B ->]|[B [E ->]]]; rewrite B; [reflexivity|rewrite E; reflexivity].
  - destruct (Hbefore i ltac:(lia)) as [Hb [He Hc]].
    assert (Hnext : wait_loop env el t (S i) fuel = Some (ScriptOutput msg)).
    { apply IH; [|replace (S i + k) with (i + S k) by lia; exact Hfound|lia].
      intros j Hj. apply Hbefore. lia. }
    assert (Hlt : Z.ltb t (clock_at env i - start_time env) = false) by (apply Z.ltb_ge; lia).
    destruct (probe_button env i) as [[|]|] eqn:B.
    + contradiction.
    + rewrite Hlt. exact Hnext.
    + destruct (probe_element env i) as [[|]|] eqn:E.
      * exfalso; exact (He eq_refl eq_refl).
      * rewrite Hlt. exact Hnext.
      * rewrite Hlt. exact Hnext.
Qed.

(** X7: if the element shows up at poll [k] (the button test holds, or it
    raises an error and the UI element test holds) and at every earlier
    poll it was absent and no more than [timeout] seconds had passed,
    [wait-for-element] prints [Found button: <el>] (or
    [Found element: <el>]) and exits 0. *)
Theorem wait_for_element_found :
  forall (env : Env) (app el : string) (extra : list string) (fuel k : nat) (msg : string),
    (forall j, j < k ->
       probe_button env j <> Some true
       /\ (probe_button env j = None -> probe_element env j <> Some true)
       /\ (clock_at env j - start_time env <= wait_timeout extra)%Z) ->
    ((probe_button env k = Some true /\ msg = ("Found button: " ++ el)%string)
     \/ (probe_button env k = None /\ probe_element env k = Some true
         /\ msg = ("Found element: " ++ el)%string)) ->
    k < fuel ->
    helper_main_ext env fuel ("wait-for-element" :: app :: el :: extra)
    = Some (mkOutcome 0 [msg] (if ax_trusted env then [] else [ax_warning])).
Proof.
  intros env app el extra fuel k msg Hb Hf Hk.
  assert (Hw : wait_loop env el (wait_timeout extra) 0 fuel = Some (ScriptOutput msg)).
  { apply (wait_loop_found env el _ k); [intros j Hj; apply Hb; lia|exact Hf|exact Hk]. }
  unfold helper_main_ext, command_v2, command_v1. cbn [String.eqb Ascii.eqb Bool.eqb andb].
  unfold waitForElement, run_wait_script. rewrite Hw.
  unfold run_body, ensureAccessibilityPermission, bind, ret, emit, emit_err, print, eprint,
    no_output.
  destruct (ax_trusted env); reflexivity.
Qed.

Lemma wait_loop_probe_element : forall env f el t fuel i,
  (forall j, probe_button env j <> None) ->
  wait_loop (with_probe_element env f) el t i fuel = wait_loop env el t i fuel.
Proof.
  intros env f el t fuel; induction fuel as [|fuel IH]; intros i Hb; [reflexivity|].
  cbn [wait_loop]. simpl probe_button. simpl clock_at. simpl start_time.
  rewrite (IH (S i) Hb).
  destruct (probe_button env i) as [[|]|] eqn:B; [reflexivity|reflexivity|].
  exfalso; exact (Hb i B).
Qed.

(** X8: the polling script consults [exists UI element] only when
    [exists button] raises an error: on a machine where the button test
    always answers (true or false), what [wait-for-element] does is the
    same whatever the UI element test would say, so an element that is
    not a button is then never found. *)
Theorem wait_for_element_button_only :
  forall (env : Env) (f : nat -> option bool) (args : list string) (fuel : nat),
    (forall j, probe_button env j <> None) ->
    helper_main_ext (with_probe_element env f) fuel args = helper_main_ext env fuel args.
Proof.
  intros env f args fuel Hb.
  unfold helper_main_ext. destruct args as [|cmd rest]; [reflexivity|].
  unfold command_v2, command_v1.
  destruct (String.eqb cmd "open-app").
  { destruct rest; unfold openApp; reflexivity. }
  destruct (String.eqb cmd "focus-app"); [reflexivity|].
  destruct (String.eqb cmd "run-applescript"); [reflexivity|].
  destruct (String.eqb cmd "click-menu"); [reflexivity|].
  destruct (String.eqb cmd "check-ax"); [reflexivity|].
  destruct (String.eqb cmd "click-element"); [reflexivity|].
  destruct (String.eqb cmd "get-text"); [reflexivity|].
  destruct (String.eqb cmd "wait-for-element"); [|reflexivity].
  destruct rest as [|a [|b extra]]; try reflexivity.
  unfold waitForElement, run_wait_script.
  rewrite (wait_loop_probe_element env f b _ fuel 0 Hb). reflexivity.
Qed.


Lemma digit_char : forall d, d < 10 ->
  nat_of_ascii (ascii_of_nat (48 + d)) = 48 + d.
Proof.
  intros d Hd. apply nat_ascii_embedding. lia.
Qed.

Lemma digits_value_digits : forall ds acc,
  Forall (fun d => d < 10) ds ->
  digits_value acc (string_of_digits ds)
  = Some (fold_left (fun acc d => acc * 10 + Z.of_nat d)%Z ds acc).
Proof.
  induction ds as [|d ds IH]; intros acc H; [reflexivity|].
  inversion H as [|? ? Hd Hds]; subst.
  change (string_of_digits (d :: ds))
    with (String (ascii_of_nat (48 + d)) (string_of_digits ds)).
  cbn [digits_value fold_left]. rewrite (digit_char d Hd).
  replace (Nat.leb 48 (48 + d) && Nat.leb (48 + d) 57) with true
    by (symmetry; apply andb_true_intro; split; apply Nat.leb_le; lia).
  replace (48 + d - 48) with d by lia.
  apply IH. exact Hds.
Qed.

Lemma digits_value_space : forall s acc, digits_value acc (s ++ " ") = None.
Proof.
  induction s as [|c s IH]; intros acc; [reflexivity|].
  change ((String c s) ++ " ")%string with (String c (s ++ " ")).
  cbn [digits_value].
  destruct (Nat.leb 48 (nat_of_ascii c) && Nat.leb (nat_of_ascii c) 57);
    [apply IH|reflexivity].
Qed.

Lemma first_digit_not_sign : forall d, d < 10 ->
  Ascii.eqb (ascii_of_nat (48 + d)) "-" = false
  /\ Ascii.eqb (ascii_of_nat (48 + d)) "+" = false.
Proof.
  intros d Hd.
  do 10 (destruct d as [|d]; [split; reflexivity|]). lia.
Qed.

(** X10: Swift's [Int(_:)], as used for the [wait-for-element] timeout,
    reads a non-empty decimal numeral with an optional [+] or [-] sign
    (leading zeros allowed) as its value when that lies in the 64-bit
    range and rejects it otherwise; a string with a trailing space (or
    a leading one) is rejected. When it is rejected the timeout falls back
    to 10. *)
Theorem swift_int_decimal :
  forall (ds : list nat) (s : string) (r : list string),
    ds <> [] -> Forall (fun d => d < 10) ds ->
    swift_int (string_of_digits ds) = in_int64 (digits_number ds)
    /\ swift_int ("+" ++ string_of_digits ds) = in_int64 (digits_number ds)
    /\ swift_int ("-" ++ string_of_digits ds) = in_int64 (- digits_number ds)
    /\ swift_int (s ++ " ") = None
    /\ swift_int (" " ++ s) = None
    /\ wait_timeout (string_of_digits ds :: r)
       = match in_int64 (digits_number ds) with Some z => z | None => 10%Z end.
Proof.
  intros ds s r Hne Hds.
  assert (Hv : unsigned_digits (string_of_digits ds) = Some (digits_number ds)).
  { destruct ds as [|d ds']; [contradiction|].
    unfold unsigned_digits. cbn [string_of_digits fold_right].
    change (digits_value 0 (string_of_digits (d :: ds')) = Some (digits_number (d :: ds'))).
    unfold digits_number. apply digits_value_digits. exact Hds. }
  assert (Hu : swift_int (string_of_digits ds) = in_int64 (digits_number ds)).
  { destruct ds as [|d ds']; [contradiction|].
    inversion Hds as [|? ? Hd _]; subst.
    destruct (first_digit_not_sign d Hd) as [Hm Hp].
    unfold swift_int. cbn [string_of_digits fold_right].
    rewrite Hm, Hp. cbn [string_of_digits fold_right] in Hv. rewrite Hv. reflexivity. }
  split; [exact Hu|split; [|split; [|split; [|split]]]].
  - simpl. rewrite Hv. reflexivity.
  - simpl. rewrite Hv. reflexivity.
  - destruct s as [|c s]; [reflexivity|].
    change ((String c s) ++ " ")%string with (String c (s ++ " ")).
    assert (Hs : unsigned_digits (s ++ " ") = None).
    { unfold unsigned_digits. destruct (s ++ " ")%string eqn:E; [reflexivity|].
      rewrite <- E. apply digits_value_space. }
    unfold swift_int.
    destruct (Ascii.eqb c "-"); [rewrite Hs; reflexivity|].
    destruct (Ascii.eqb c "+"); [rewrite Hs; reflexivity|].
    unfold unsigned_digits.
    change (String c (s ++ " ")) with ((String c s) ++ " ")%string.
    rewrite digits_value_space. reflexivity.
  - reflexivity.
  - simpl. rewrite Hu. reflexivity.
Qed.

(* ------------------------------------------------------------------ *)
(** ** Further facts about the CommandBar *)

Lemma trim_start_spec : forall s,
  exists pre, s = pre ++ trim_start s /\ Forall (fun c => is_js_whitespace c = true) pre
  /\ match trim_start s with [] => True | c :: _ => is_js_whitespace c = false end.
Proof.
  induction s as [|c s IH]; simpl.
  - exists []. split; [reflexivity|split; [constructor|exact I]].
  - destruct (is_js_whitespace c) eqn:W.
    + destruct IH as [pre [E [F H]]]. exists (c :: pre).
      split; [simpl; congruence|split; [constructor; assumption|exact H]].
    + exists []. split; [reflexivity|split; [constructor|exact W]].
Qed.

Lemma trim_start_id : forall s,
  match s with [] => True | c :: _ => is_js_whitespace c = false end ->
  trim_start s = s.
Proof. intros [|c s] H; simpl; [reflexivity|]. now rewrite H. Qed.

Lemma js_trim_spec : forall s,
  exists pre suf,
    s = pre ++ js_trim s ++ suf
    /\ Forall (fun c => is_js_whitespace c = true) pre
    /\ Forall (fun c => is_js_whitespace c = true) suf
    /\ match js_trim s with [] => True | c :: _ => is_js_whitespace c = false end
    /\ match rev (js_trim s) with [] => True | c :: _ => is_js_whitespace c = false end.
Proof.
  intros s. unfold js_trim, trim_end.
  destruct (trim_start_spec s) as [pre [E1 [F1 H1]]].
  remember (trim_start s) as t eqn:Et.
  destruct (trim_start_spec (rev t)) as [pre2 [E2 [F2 H2]]].
  remember (trim_start (rev t)) as u eqn:Eu.
  assert (Tt : t = rev u ++ rev pre2).
  { rewrite <- (rev_involutive t), E2, rev_app_distr. reflexivity. }
  exists pre, (rev pre2).
  split; [|split; [exact F1|split; [apply Forall_rev; exact F2|split]]].
  - rewrite E1 at 1. rewrite Tt, app_assoc. reflexivity.
  - destruct (rev u) as [|c r] eqn:Ru; [exact I|].
    rewrite Tt in H1. exact H1.
  - rewrite rev_involutive. exact H2.
Qed.

(** X11: [s.trim()] only removes JavaScript white space at both ends: the
    string is the trimmed one with white space before and after, the
    trimmed string neither starts nor ends with white space, and
    trimming twice is trimming once. *)
Theorem js_trim_properties :
  forall s : JsString,
    (exists pre suf,
       s = pre ++ js_trim s ++ suf
       /\ Forall (fun c => is_js_whitespace c = true) pre
       /\ Forall (fun c => is_js_whitespace c = true) suf)
    /\ match js_trim s with [] => True | c :: _ => is_js_whitespace c = false end
    /\ match rev (js_trim s) with [] => True | c :: _ => is_js_whitespace c = false end
    /\ js_trim (js_trim s) = js_trim s.
Proof.
  intros s. destruct (js_trim_spec s) as [pre [suf [E [F1 [F2 [H1 H2]]]]]].
  split; [exists pre, suf; auto|split; [exact H1|split; [exact H2|]]].
  set (m := js_trim s) in *.
  unfold js_trim, trim_end. rewrite (trim_start_id m H1).
  rewrite (trim_start_id (rev m) H2). apply rev_involutive.
Qed.



(** X14: the steps panel lists [events.slice(-50)]: the last
    [min(length, 50)] events in arrival order; it is empty (the
    [No steps yet] message) only when no event has arrived; and right
    after an event arrives, that event is the last one listed. *)
Theorem recent_events_window :
  forall (evs : list UiStepEvent) (st : CommandBarState) (ev : UiStepEvent),
    length (recentEvents evs) = Nat.min (length evs) 50
    /\ (exists older, evs = older ++ recentEvents evs)
    /\ (recentEvents evs = [] <-> evs = [])
    /\ (exists shown, recentEvents (events (on_step_event st ev)) = shown ++ [ev]).
Proof.
  intros evs st ev. unfold recentEvents.
  split; [|split; [|split]].
  - rewrite length_skipn. lia.
  - exists (firstn (length evs - 50) evs). symmetry. apply firstn_skipn.
  - split; [|intros ->; reflexivity].
    intros H. apply (f_equal (@length _)) in H. rewrite length_skipn in H.
    destruct evs as [|x evs]; [reflexivity|]. cbn [length] in H. lia.
  - simpl. rewrite length_app. simpl.
    rewrite skipn_app.
    replace (length (events st) + 1 - 50 - length (events st)) with 0 by lia.
    exists (skipn (length (events st) + 1 - 50) (events st)). reflexivity.
Qed.

(** X15: whatever the user and the server do (typing, focus, blur, hint
    ticks, step events, the panel buttons, submits), the idle hint index
    stays within [idleHints], so the placeholder always has a hint to
    show; and it only moves on a tick while the input is blank and
    unfocused. *)
Theorem hint_index_in_bounds :
  forall acts : list UiAction,
    hintIndex (fold_left ui_step acts initial_ui) < length idleHints
    /\ forall st a, hintIndex (ui_step st a) <> hintIndex st ->
         a = HintTick /\ shouldRotate st = true.
Proof.
  intros acts. split.
  - assert (Inv : forall st, hintIndex st < length idleHints ->
                  hintIndex (fold_left ui_step acts st) < length idleHints).
    { induction acts as [|a acts IH]; intros st Hst; [exact Hst|].
      simpl. apply IH.
      destruct a; simpl; try exact Hst.
      - destruct (isLoading st); exact Hst.
      - unfold hint_tick. destruct (shouldRotate st); [|exact Hst].
        cbn [hintIndex]. apply Nat.mod_upper_bound. discriminate.
      - unfold submit_start. destruct (js_empty (js_trim (input st)) || isLoading st); exact Hst.
      - unfold submit_finish. destruct ok; exact Hst. }
    apply Inv. simpl. lia.
  - intros st a H. destruct a; simpl in H.
    + destruct (isLoading st); simpl in H; congruence.
    + congruence.
    + congruence.
    + unfold hint_tick in H. destruct (shouldRotate st) eqn:R; [split; reflexivity|congruence].
    + congruence.
    + congruence.
    + congruence.
    + unfold submit_start in H.
      destruct (js_empty (js_trim (input st)) || isLoading st); simpl in H; congruence.
    + unfold submit_finish in H. destruct ok; simpl in H; congruence.
Qed.

(** X16: the status colour and icon classify statuses the same way: the
    four statuses [ok], [error], [running] and [queued] get four
    different icons, a status shows the white circle exactly when it
    shows the [text-white/70] colour, and any status other than [ok],
    [error] and [running] is shown as [queued]. *)
Theorem status_display :
  forall status : string,
    (getStatusIcon status = getStatusIcon "queued"
       <-> getStatusColor status = "text-white/70")
    /\ (status <> "ok" -> status <> "error" -> status <> "running" ->
          getStatusIcon status = getStatusIcon "queued"
          /\ getStatusColor status = getStatusColor "queued")
    /\ NoDup (map getStatusIcon ["ok"; "error"; "running"; "queued"]).
Proof.
  intros status. unfold getStatusIcon, getStatusColor.
  split; [|split].
  - destruct (String.eqb status "ok"); [split; discriminate|].
    destruct (String.eqb status "error"); [split; discriminate|].
    destruct (String.eqb status "running"); [split; discriminate|].
    tauto.
  - intros H1 H2 H3.
    apply String.eqb_neq in H1, H2, H3. rewrite H1, H2, H3. split; reflexivity.
  - vm_compute. repeat constructor; simpl; intuition discriminate.
Qed.


(** Witness of X7: the button of [found_env] appears at poll 3. *)
Lemma wait_for_element_found_witness :
  helper_main_ext found_env 5 ["wait-for-element"; "Calculator"; "Equals"]
  = Some (mkOutcome 0 ["Found button: Equals"] []).
Proof.
  refine (wait_for_element_found found_env "Calculator" "Equals" [] 5 3
            "Found button: Equals" _ _ _).
  - intros j Hj. destruct j as [|[|[|j]]]; [| | |lia];
      (split; [discriminate|split; [discriminate|simpl; lia]]).
  - left. split; reflexivity.
  - lia.
Defined.

(** Witness of X8: on [demo_env] the button test always answers [false],
    so a UI element test answering [true] changes nothing. *)
Lemma wait_for_element_button_only_witness :
  helper_main_ext (with_probe_element demo_env (fun _ => Some true)) 23
    ["wait-for-element"; "Calculator"; "Equals"]
  = helper_main_ext demo_env 23 ["wait-for-element"; "Calculator"; "Equals"].
Proof.
  apply wait_for_element_button_only. intros j. simpl. discriminate.
Defined.


(** Witness of X10: the numeral [42]. *)
Lemma swift_int_decimal_witness :
  swift_int (string_of_digits [4; 2]) = Some 42%Z
  /\ swift_int ("-" ++ string_of_digits [4; 2]) = Some (-42)%Z
  /\ swift_int ("5" ++ " ") = None.
Proof.
  assert (Hne : [4; 2] <> []) by discriminate.
  assert (Hd : Forall (fun d => d < 10) [4; 2]) by (repeat constructor; lia).
  destruct (swift_int_decimal [4; 2] "5" [] Hne Hd) as [H1 [_ [H3 [H4 _]]]].
  split; [rewrite H1; vm_compute; reflexivity|split; [rewrite H3; vm_compute; reflexivity|exact H4]].
Defined.

